(** * Madrid business opportunities: enrichment and scoring pipeline

    A shallow embedding of [visualizacion_locales_movil5.1.py]: the text
    normaliser, the boundary index, coordinate completion, the per-area
    aggregation, the quantile tiering and the opportunity table, followed by
    the properties the specification states about them.

    Conventions of the embedding
    - a Python [str] is the list of its code points ([pystr]); comparison of
      two strings is the lexicographic comparison of code points;
    - [None] / [NaN] in a nullable cell is [None] of an [option];
    - a float is modelled by an exact rational ([Q]); [NaN] is [None];
    - a raised exception is the [Raise] constructor of [result];
    - a [dict] is a [gmap]; a [Series] / [DataFrame] is the list of its rows,
      in row order. *)

From Stdlib Require Import QArith Qround Lqa Ascii String.
From stdpp Require Import base option list sorting gmap.


(* ================================================================= *)
(** * Python strings *)
(* ================================================================= *)

Abbreviation pystr := (list N) (only parsing).

(** A string literal of the script, as the list of its code points (ASCII
    literals only). *)
Definition lit (s : string) : pystr := N_of_ascii <$> list_ascii_of_string s.

(** [bool(s)] of a string: non-empty. *)
Definition truthy (s : pystr) : bool :=
  match s with [] => false | _ :: _ => true end.

(** [a <= b] on strings: lexicographic on code points. *)
Fixpoint pystr_leb (a b : pystr) : bool :=
  match a, b with
  | [], _ => true
  | _ :: _, [] => false
  | x :: a', y :: b' =>
      if (x <? y)%N then true
      else if (x =? y)%N then pystr_leb a' b'
      else false
  end.

Definition pystr_le (a b : pystr) : Prop := pystr_leb a b = true.

(** What the script takes from the [unicodedata] module and from the [str]
    methods: the NFKD normal form of a string, the canonical combining class
    of a character, the white space test of [str.strip], and the case
    mappings [str.upper] and [str.lower]. *)
Record unicode_data := UnicodeData {
  nfkd : pystr → pystr;
  combining : N → N;
  isspace : N → bool;
  upper : pystr → pystr;
  lower : pystr → pystr
}.

Section Strings.
Context (U : unicode_data).

Fixpoint lstrip (s : pystr) : pystr :=
  match s with
  | [] => []
  | c :: s' => if isspace U c then lstrip s' else s
  end.

Definition rstrip (s : pystr) : pystr := reverse (lstrip (reverse s)).

(** [s.strip()] *)
Definition strip (s : pystr) : pystr := rstrip (lstrip s).

(** [normalize_str(s)]: a missing value gives the empty string; a text is
    stripped, decomposed (NFKD), its combining characters are dropped, and
    the rest is upper-cased. *)
Definition normalize_str (s : option pystr) : pystr :=
  match s with
  | None => []
  | Some s =>
      let s := strip s in
      let s := filter (λ ch, combining U ch = 0%N) (nfkd U s) in
      upper U s
  end.
End Strings.

(* ================================================================= *)
(** * An excerpt of the Unicode character database *)
(* ================================================================= *)

(** The entries of the Unicode character database for the code points below
    U+0100 and for the combining marks their decompositions use; every other
    code point is left as it is.  It is the instance at which the functions
    above are evaluated on concrete inputs. *)
Module Latin1.

(** Full compatibility decomposition of one code point. *)
Definition decomposition (c : N) : pystr :=
  match c with
  | 0xA0 => [0x20] | 0xA8 => [0x20; 0x308] | 0xAA => [0x61]
  | 0xAF => [0x20; 0x304] | 0xB4 => [0x20; 0x301] | 0xB5 => [0x3BC]
  | 0xB8 => [0x20; 0x327] | 0xBA => [0x6F]
  | 0xC1 => [0x41; 0x301] | 0xC9 => [0x45; 0x301] | 0xCD => [0x49; 0x301]
  | 0xD1 => [0x4E; 0x303] | 0xD3 => [0x4F; 0x301] | 0xDA => [0x55; 0x301]
  | 0xDC => [0x55; 0x308]
  | 0xE1 => [0x61; 0x301] | 0xE9 => [0x65; 0x301] | 0xED => [0x69; 0x301]
  | 0xF1 => [0x6E; 0x303] | 0xF3 => [0x6F; 0x301] | 0xFA => [0x75; 0x301]
  | 0xFC => [0x75; 0x308]
  | _ => [c]
  end%N.

(** Canonical combining class. *)
Definition ccc (c : N) : N :=
  match c with
  | 0x301 | 0x303 | 0x304 | 0x308 => 230
  | 0x327 => 202
  | _ => 0
  end%N.

(** Canonical ordering: a combining mark moves behind the marks of a lower
    class that follow it directly. *)
Fixpoint reorder_insert (c : N) (s : pystr) : pystr :=
  match s with
  | [] => [c]
  | y :: s' =>
      if ((0 <? ccc y) && (ccc y <? ccc c))%N
      then y :: reorder_insert c s'
      else c :: s
  end.

Definition to_nfkd (s : pystr) : pystr :=
  foldr reorder_insert [] (s ≫= decomposition).

(** The characters [str.strip] removes. *)
Definition space (c : N) : bool :=
  ((0x09 <=? c) && (c <=? 0x0D) || (0x1C <=? c) && (c <=? 0x20)
   || (c =? 0x85) || (c =? 0xA0) || (c =? 0x1680)
   || (0x2000 <=? c) && (c <=? 0x200A) || (c =? 0x2028) || (c =? 0x2029)
   || (c =? 0x202F) || (c =? 0x205F) || (c =? 0x3000))%N.

Definition upper_char (c : N) : pystr :=
  (if (0x61 <=? c) && (c <=? 0x7A) then [c - 0x20]
   else if c =? 0xB5 then [0x39C]
   else if c =? 0xDF then [0x53; 0x53]
   else if c =? 0xF7 then [c]
   else if c =? 0xFF then [0x178]
   else if (0xE0 <=? c) && (c <=? 0xFE) then [c - 0x20]
   else [c])%N.

Definition lower_char (c : N) : pystr :=
  (if (0x41 <=? c) && (c <=? 0x5A) then [c + 0x20]
   else if c =? 0xD7 then [c]
   else if (0xC0 <=? c) && (c <=? 0xDE) then [c + 0x20]
   else [c])%N.

Definition data : unicode_data :=
  {| nfkd := to_nfkd;
     combining := ccc;
     isspace := space;
     upper := λ s, s ≫= upper_char;
     lower := λ s, s ≫= lower_char |}.

End Latin1.



(* ================================================================= *)
(** * Exceptions, tiers, and the pandas operations on a count series *)
(* ================================================================= *)

Inductive exn := ValueError | OSError | JSONDecodeError.

Inductive result (A : Type) :=
  | Return (a : A)
  | Raise (e : exn).
Arguments Return {A} a.
Arguments Raise {A} e.

(** The tier labels: "Muy baja", "Baja", "Media", "Alta", "Sin datos". *)
Inductive tier := Muy_baja | Baja | Media | Alta | Sin_datos.

Definition tier_name (t : tier) : pystr :=
  match t with
  | Muy_baja => lit "Muy baja"
  | Baja => lit "Baja"
  | Media => lit "Media"
  | Alta => lit "Alta"
  | Sin_datos => lit "Sin datos"
  end.

#[global] Instance tier_eq_dec : EqDecision tier.
Proof. solve_decision. Defined.

(** [unique]: the distinct values, in order of first appearance. *)
Fixpoint unique {A} (eqb : A → A → bool) (l : list A) : list A :=
  match l with
  | [] => []
  | x :: l' => x :: filter (λ y, eqb x y = false) (unique eqb l')
  end.

(** [s.nunique()] of a series without missing values. *)
Definition nunique (s : list Z) : nat := length (unique Z.eqb s).

Definition nthZ (a : list Z) (i : Z) : Z := default 0%Z (a !! Z.to_nat i).

(** [s.quantile(q)], linear interpolation between the two order statistics
    around the position [q * (n - 1)]. *)
Definition quantile (s : list Z) (q : Q) : Q :=
  let a := merge_sort Z.le s in
  let n := Z.of_nat (length a) in
  let pos := (q * inject_Z (n - 1))%Q in
  let lo := Qfloor pos in
  let hi := Z.min (lo + 1) (n - 1) in
  let g := (pos - inject_Z lo)%Q in
  (inject_Z (nthZ a lo) + (inject_Z (nthZ a hi) - inject_Z (nthZ a lo)) * g)%Q.

(** [s.median()]: the middle order statistic, or the mean of the two middle
    ones. *)
Definition median (s : list Z) : Q :=
  let a := merge_sort Z.le s in
  let n := Z.of_nat (length a) in
  if Z.odd n then inject_Z (nthZ a (n / 2))
  else ((inject_Z (nthZ a (n / 2 - 1)) + inject_Z (nthZ a (n / 2))) / 2)%Q.

(** [np.linspace(0, 1, k + 1)] *)
Definition linspace (k : nat) : list Q :=
  (λ i, Z.of_nat i # Pos.of_nat k) <$> seq 0 (S k).

(** [bins.searchsorted(x, side="left")] on ascending edges: the index of the
    first edge that is not below [x]. *)
Fixpoint searchsorted_left (bins : list Q) (x : Q) : nat :=
  match bins with
  | [] => 0
  | b :: bins' => if Qle_bool x b then 0 else S (searchsorted_left bins' x)
  end.

(** [duplicates="drop"]: when an edge is repeated (and there are not exactly
    two edges), the distinct edges replace the edges. *)
Definition drop_duplicates (bins : list Q) : list Q :=
  let unique_bins := unique Qeq_bool bins in
  if (length unique_bins <? length bins) && negb (length bins =? 2)
  then unique_bins else bins.

(** pandas' [_bins_to_cuts] with [right=True], [include_lowest=True],
    [duplicates="drop"] and an explicit list of labels: repeated edges are
    dropped, each value gets the index of its bin, and the labels must be
    one fewer than the edges that are left. A value outside every bin gets no
    label ([None]). *)
Definition bins_to_cuts (x : list Z) (bins : list Q) (labels : list tier)
    : result (list (option tier)) :=
  let bins := drop_duplicates bins in
  let ids :=
    (λ v, if from_option (Qeq_bool (inject_Z v)) false (head bins) then 1
          else searchsorted_left bins (inject_Z v)) <$> x in
  let na_mask i := (i =? length bins) || (i =? 0) in
  if negb (length labels =? length bins - 1) then Raise ValueError
  else Return ((λ i, if na_mask i then None else labels !! (i - 1)) <$> ids).

(** [pd.qcut(x, q, labels=labels, duplicates="drop")] with the quantiles
    given as a list. *)
Definition qcut (x : list Z) (q : list Q) (labels : list tier)
    : result (list (option tier)) :=
  bins_to_cuts x (quantile x <$> q) labels.

(* ================================================================= *)
(** * Tiering *)
(* ================================================================= *)

Definition default_q : list Q := [0; 1 # 4; 1 # 2; 3 # 4; 1]%Q.
Definition default_labels : list tier := [Muy_baja; Baja; Media; Alta].

(** [s.apply(lambda x: "Baja" if x <= median_val else "Alta")] *)
Definition median_split (s : list Z) : list (option tier) :=
  let median_val := median s in
  (λ x, Some (if Qle_bool (inject_Z x) median_val then Baja else Alta)) <$> s.

Definition tertile_split (s : list Z) : list (option tier) :=
  let q33 := quantile s (33 # 100) in
  let q67 := quantile s (67 # 100) in
  (λ x, Some (if Qle_bool (inject_Z x) q33 then Muy_baja
              else if Qle_bool (inject_Z x) q67 then Baja else Media)) <$> s.

(** The body of the first [except ValueError] of [quantile_labels]. *)
Definition qcut_fallback (s : list Z) : result (list (option tier)) :=
  let unique_vals := nunique s in
  if unique_vals =? 2 then Return (median_split s)
  else if unique_vals =? 3 then Return (tertile_split s)
  else
    match qcut s (linspace (unique_vals `min` 3))
               (take ((unique_vals - 1) `min` 3) [Baja; Media; Alta]) with
    | Return r => Return r
    | Raise ValueError => Return (median_split s)
    | Raise e => Raise e
    end.

Definition quantile_labels_with (q : list Q) (labels : list tier) (s : list Z)
    : result (list (option tier)) :=
  if nunique s <=? 1 then Return (replicate (length s) (Some Sin_datos))
  else
    match qcut s q (take (length q - 1) labels) with
    | Return r => Return r
    | Raise ValueError => qcut_fallback s
    | Raise e => Raise e
    end.

(** [quantile_labels(s)], as every caller uses it: with the default quantiles
    and labels. *)
Definition quantile_labels (s : list Z) : result (list (option tier)) :=
  quantile_labels_with default_q default_labels s.

(** Two of the edges are equal. *)
Definition coincide (edges : list Q) : Prop :=
  ∃ i j a b, i < j ∧ edges !! i = Some a ∧ edges !! j = Some b ∧ (a == b)%Q.

(** The labelling the specification describes for repeated quartile edges:
    the repeated edges are merged and the values are binned by the edges that
    are left, with as many of the ascending labels as there are bins. This
    follows the specification, not the script. *)
Definition merged_quartile_split (s : list Z) : result (list (option tier)) :=
  let bins := drop_duplicates (quantile s <$> default_q) in
  bins_to_cuts s bins (take (length bins - 1) default_labels).

(* ================================================================= *)
(** * Boundary features and their centroid *)
(* ================================================================= *)

(** A float cell: [None] is [NaN]. *)
Abbreviation fnum := (option Q) (only parsing).

Definition notna {A} (x : option A) : bool :=
  match x with Some _ => true | None => false end.
Definition isna {A} (x : option A) : bool := negb (notna x).

(** The geometry of a feature: its ["type"] and its ["coordinates"]. A ring
    is a list of points, a point a list of numbers. *)
Inductive geometry :=
  | Polygon (coordinates : list (list (list fnum)))
  | MultiPolygon (coordinates : list (list (list (list fnum))))
  | OtherGeometry.

(** A feature of a boundary file: its properties, in file order, and its
    geometry ([None]: the key is missing or null). A property value that is
    null is [None]. *)
Record feature := Feature {
  properties : list (pystr * option pystr);
  feat_geometry : option geometry
}.

(** [a.mean()] of a non-empty column: [NaN] as soon as one entry is. *)
Definition mean (a : list fnum) : fnum :=
  xs ← mapM id a;
  Some (foldr Qplus 0%Q xs / inject_Z (Z.of_nat (length xs)))%Q.

(** [coords = np.array(ring)] followed by [coords[:, 0].mean()] and
    [coords[:, 1].mean()]: the ring has to be a non-empty rectangular table
    with at least two columns, anything else raises ([None]). The result is
    [(lat, lon)]. *)
Definition ring_centroid (ring : list (list fnum)) : option (fnum * fnum) :=
  match ring with
  | [] => None
  | p :: _ =>
      if forallb (λ p', length p' =? length p) ring then
        xs ← mapM (λ p', p' !! 0) ring;
        ys ← mapM (λ p', p' !! 1) ring;
        Some (mean ys, mean xs)
      else None
  end.

(** [feature_centroid(feat)]: every exception of the [try] block gives
    [(nan, nan)]. *)
Definition feature_centroid (feat : feature) : fnum * fnum :=
  let attempt : option (fnum * fnum) :=
    match feat_geometry feat with
    | None => None
    | Some (Polygon cs) =>
        match cs with
        | ring :: _ => ring_centroid ring
        | [] => None
        end
    | Some (MultiPolygon cs) =>
        match cs with
        | (ring :: _) :: _ => ring_centroid ring
        | _ => None
        end
    | Some OtherGeometry => Some (None, None)
    end in
  default (None, None) attempt.

(* ================================================================= *)
(** * The boundary index *)
(* ================================================================= *)

(** What is found at a path: a file that cannot be opened, a file that is not
    JSON, or a feature collection (the list under ["features"]). A path that
    is not in the map does not exist. *)
Inductive file :=
  | Unreadable
  | NotJson
  | Json (features : list feature).

(** [a or b] on nullable strings. *)
Definition py_or (a b : option pystr) : option pystr :=
  match a with
  | Some (_ :: _) => a
  | _ => b
  end.

(** [d.get(k)] on the properties. *)
Definition props_get (props : list (pystr * option pystr)) (k : pystr)
    : option pystr :=
  (list_find (λ kv, kv.1 = k) props) ≫= (λ ikv, ikv.2.2).

Section Pipeline.
Context (U : unicode_data).

(** The loop of [load_geojson]: each named feature is stored under its
    normalised name, a later feature replacing an earlier one. *)
Definition index_features (prop_key : pystr) (features : list feature)
    : gmap pystr feature :=
  foldl (λ name_to_feature feat,
           let props := properties feat in
           let name :=
             py_or (props_get props prop_key)
               (py_or (props_get props (lower U prop_key))
                  (head props ≫= snd)) in
           match name with
           | None => name_to_feature
           | Some _ => <[normalize_str U name := feat]> name_to_feature
           end)
        ∅ features.

(** [load_geojson(path, prop_key)] in a file system [fs]. *)
Definition load_geojson (fs : gmap pystr file) (path prop_key : pystr)
    : result (option (list feature) * option (gmap pystr feature)) :=
  if negb (truthy path) || negb (bool_decide (is_Some (fs !! path)))
  then Return (None, None)
  else
    match fs !! path with
    | None => Return (None, None)
    | Some Unreadable => Raise OSError
    | Some NotJson => Raise JSONDecodeError
    | Some (Json features) =>
        Return (Some features, Some (index_features prop_key features))
    end.

(* =============================================================== *)
(** * Records and coordinate completion *)
(* =============================================================== *)

(** A business record: the columns the pipeline reads. *)
Record record := MkRecord {
  desc_epigrafe : option pystr;
  desc_barrio_local : option pystr;
  desc_distrito_local : option pystr;
  lat : fnum;
  lon : fnum
}.

Definition set_lat (r : record) (v : fnum) : record :=
  MkRecord (desc_epigrafe r) (desc_barrio_local r) (desc_distrito_local r)
          v (lon r).
Definition set_lon (r : record) (v : fnum) : record :=
  MkRecord (desc_epigrafe r) (desc_barrio_local r) (desc_distrito_local r)
          (lat r) v.

(** The end of [load_data]: the text columns are normalised. *)
Definition normalize_columns (df : list record) : list record :=
  (λ r, MkRecord (Some (normalize_str U (desc_epigrafe r)))
                (Some (normalize_str U (desc_barrio_local r)))
                (Some (normalize_str U (desc_distrito_local r)))
                (lat r) (lon r)) <$> df.

(** [df["lat"].isna() | df["lon"].isna()] *)
Definition mask_centroid (df : list record) : list bool :=
  (λ r, isna (lat r) || isna (lon r)) <$> df.

(** [df[mask]] *)
Fixpoint select {A} (mask : list bool) (df : list A) : list A :=
  match mask, df with
  | b :: mask', r :: df' =>
      if b then r :: select mask' df' else select mask' df'
  | _, _ => []
  end.

(** [df.loc[mask, col] = values]: the values go, in order, to the rows the
    mask selects. *)
Fixpoint loc_assign (set : record → fnum → record) (mask : list bool)
    (values : list fnum) (df : list record) : list record :=
  match mask, df with
  | b :: mask', r :: df' =>
      if b then
        match values with
        | v :: values' => set r v :: loc_assign set mask' values' df'
        | [] => r :: df'
        end
      else r :: loc_assign set mask' values df'
  | _, _ => df
  end.

(** [np.where(cond, a, b)] *)
Fixpoint np_where {A} (cond : list bool) (a b : list A) : list A :=
  match cond, a, b with
  | c :: cond', x :: a', y :: b' =>
      (if c then x else y) :: np_where cond' a' b'
  | _, _, _ => []
  end.

(** The body of the loop over [to_fill]: the centroid of the area the row
    names, when the normalised name is not empty and is in the index. *)
Definition area_centroid (index : gmap pystr feature)
    (name : option pystr) : fnum * fnum :=
  let area := normalize_str U name in
  if truthy area then
    match index !! area with
    | Some feat => feature_centroid feat
    | None => (None, None)
    end
  else (None, None).

(** One pass of the completion, over the rows [mask] selects. *)
Definition fill_pass (index : gmap pystr feature)
    (col : record → option pystr) (mask : list bool) (df : list record)
    : list record :=
  let to_fill := select mask df in
  let centroids := (λ r, area_centroid index (col r)) <$> to_fill in
  let lats := fst <$> centroids in
  let lons := snd <$> centroids in
  let filled := zip_with (λ a b, notna a && notna b) lats lons in
  let df := loc_assign set_lat mask
              (np_where filled lats (lat <$> select mask df)) df in
  let df := loc_assign set_lon mask
              (np_where filled lons (lon <$> select mask df)) df in
  df.

(** [bool(index)] of what [load_geojson] returned: [None] and the empty
    dictionary are false. *)
Definition index_truthy (index : option (gmap pystr feature)) : bool :=
  match index with
  | Some m => negb (bool_decide (m = ∅))
  | None => false
  end.

(** "Try barrio centroids first": the neighbourhood pass, over the rows that
    missed a coordinate when the completion started. *)
Definition barrio_step (barrios_index : option (gmap pystr feature))
    (mask : list bool) (df : list record) : list record :=
  if index_truthy barrios_index
  then fill_pass (default ∅ barrios_index) desc_barrio_local mask df
  else df.

(** "Try distrito centroids for remaining missing": the mask is computed
    again, and the district pass runs over what is still missing. *)
Definition distrito_step (distritos_index : option (gmap pystr feature))
    (df : list record) : list record :=
  let mask := mask_centroid df in
  if existsb id mask && index_truthy distritos_index
  then fill_pass (default ∅ distritos_index) desc_distrito_local mask df
  else df.

(** Section 2 of the script: fill the missing coordinates from the
    neighbourhood centroids, then from the district centroids. *)
Definition complete_coordinates
    (barrios_index distritos_index : option (gmap pystr feature))
    (df : list record) : list record :=
  let mask := mask_centroid df in
  if existsb id mask
     && (index_truthy barrios_index || index_truthy distritos_index)
  then distrito_step distritos_index (barrio_step barrios_index mask df)
  else df.

(* ================================================================= *)
(** * Aggregation by area *)
(* ================================================================= *)

#[global] Instance pystr_le_dec : RelDecision pystr_le :=
  λ a b, decide (pystr_leb a b = true).

Definition pystr_eqb (a b : pystr) : bool := bool_decide (a = b).

(** [df[df["desc_epigrafe"] == normalize_str(actividad_sel)]] *)
Definition df_plot (actividad_sel : pystr) (df : list record) : list record :=
  filter (λ r, desc_epigrafe r = Some (normalize_str U (Some actividad_sel)))
         df.

(** The size of the group of key [k]: the number of rows that carry it. *)
Definition group_size (col : record → option pystr) (df : list record)
    (k : pystr) : Z :=
  Z.of_nat (length (filter (λ r, col r = Some k) df)).

(** [df.groupby(col).size()]: one entry per distinct key that is not
    missing, keys ascending, with the size of its group. *)
Definition groupby_size (col : record → option pystr) (df : list record)
    : list (pystr * Z) :=
  (λ k, (k, group_size col df k))
    <$> merge_sort pystr_le (unique pystr_eqb (omap col df)).

Definition grupo_barrio (actividad_sel : pystr) (df : list record) :=
  groupby_size desc_barrio_local (df_plot actividad_sel df).
Definition grupo_distrito (actividad_sel : pystr) (df : list record) :=
  groupby_size desc_distrito_local (df_plot actividad_sel df).

(* ================================================================= *)
(** * The opportunity table *)
(* ================================================================= *)

(** The argument of [compute_opportunities]: ["Barrio"], or anything else,
    which the function treats as ["Distrito"]. *)
Inductive level := Barrio | Distrito.

Definition level_col (lv : level) : record → option pystr :=
  match lv with
  | Barrio => desc_barrio_local
  | Distrito => desc_distrito_local
  end.

(** A row of the table: area, [n_locales], [categoria]. *)
Record opportunity := Opportunity {
  area : pystr;
  n_locales : Z;
  categoria : option tier
}.

(** [left.merge(right, how="left", on=key)]: every left row, in order, once
    per right row with its key, and once with a missing count when there is
    none. *)
Definition merge_left (left : list pystr) (right : list (pystr * Z))
    : list (pystr * option Z) :=
  left ≫= λ k,
    match filter (λ kv, kv.1 = k) right with
    | [] => [(k, None)]
    | matches => (λ kv, (k, Some kv.2)) <$> matches
    end.

(** Ascending by [n_locales], then by area name. *)
Definition opportunity_le (a b : opportunity) : Prop :=
  (n_locales a < n_locales b)%Z
  ∨ (n_locales a = n_locales b ∧ pystr_le (area a) (area b)).

#[global] Instance opportunity_le_dec : RelDecision opportunity_le.
Proof. intros a b. unfold opportunity_le. apply _. Defined.

(** [comp["n_locales"].max()] of a non-empty column. *)
Definition series_max (s : list Z) : Z :=
  match s with
  | [] => 0%Z
  | x :: s' => foldr Z.max x s'
  end.

(** [compute_opportunities(level)], given the data frame and the two
    aggregates that the script keeps in module-level variables. *)
Definition compute_opportunities (df : list record)
    (grupo_barrio grupo_distrito : list (pystr * Z)) (lv : level)
    : result (list opportunity) :=
  let all_areas_in_data := unique pystr_eqb (omap (level_col lv) df) in
  let all_areas := merge_sort pystr_le all_areas_in_data in
  let existing_areas :=
    match lv with
    | Barrio => grupo_barrio
    | Distrito => grupo_distrito
    end in
  let comp := merge_left all_areas existing_areas in
  let counts := (λ kn, default 0%Z kn.2) <$> comp in
  let categoria :=
    if (0 <? length comp) && (0 <? series_max counts)%Z
    then quantile_labels counts
    else Return (replicate (length comp) (Some Sin_datos)) in
  match categoria with
  | Raise e => Raise e
  | Return cats =>
      let comp :=
        zip_with (λ kn c, Opportunity kn.1 (default 0%Z kn.2) c) comp cats in
      Return (merge_sort opportunity_le comp)
  end.

(* ================================================================= *)
(** * Row-wise readings used in the statements *)
(* ================================================================= *)

(** What one pass does to one row: a row with a missing coordinate whose
    area centroid has both components gets both; any other row is kept. *)
Definition fill_row (index : gmap pystr feature)
    (col : record → option pystr) (r : record) : record :=
  if isna (lat r) || isna (lon r) then
    match area_centroid index (col r) with
    | (Some la, Some lo) => set_lon (set_lat r (Some la)) (Some lo)
    | _ => r
    end
  else r.

(** Both passes on one row. *)
Definition complete_row (barrios_index distritos_index : gmap pystr feature)
    (r : record) : record :=
  fill_row distritos_index desc_distrito_local
    (fill_row barrios_index desc_barrio_local r).

(** The table the page shows for a selected activity and a level. *)
Definition tabla_op (df : list record) (actividad_sel : pystr) (opcion : level)
    : result (list opportunity) :=
  compute_opportunities df (grupo_barrio actividad_sel df)
                        (grupo_distrito actividad_sel df) opcion.

End Pipeline.

(** The columns of a record other than its coordinates. *)
Definition area_fields (r : record)
    : option pystr * option pystr * option pystr :=
  (desc_epigrafe r, desc_barrio_local r, desc_distrito_local r).

(* ================================================================= *)
(** * Sample data *)
(* ================================================================= *)

Module Sample.

Definition barrios_path : pystr := lit "assets/barrios_madrid.geojson".
Definition prop_key : pystr := lit "NOMBRE".

(** A square around (40, -3), as a closed ring of [[lon, lat]] points. *)
Definition square : list (list fnum) :=
  [[Some (-4); Some 39]; [Some (-2); Some 39]; [Some (-2); Some 41];
   [Some (-4); Some 41]; [Some (-4); Some 39]]%Q.

(** A larger square, further north and east. *)
Definition far_square : list (list fnum) :=
  [[Some 0; Some 40]; [Some 20; Some 40]; [Some 20; Some 60];
   [Some 0; Some 60]; [Some 0; Some 40]]%Q.

Definition named (name : pystr) (g : option geometry) : feature :=
  Feature [(prop_key, Some name)] g.

(** A record of the given activity, neighbourhood and district, without
    coordinates. *)
Definition local (act barrio distrito : string) : record :=
  MkRecord (Some (lit act)) (Some (lit barrio)) (Some (lit distrito)) None None.

Definition centro : feature := named (lit "Centro") (Some (Polygon [square])).
Definition retiro : feature := named (lit "Retiro") (Some (Polygon [far_square])).

(** A boundary whose name is a single space. *)
Definition blank : feature := named [0x20]%N (Some (Polygon [square])).

(** A boundary whose polygon has no ring. *)
Definition sol : feature := named (lit "Sol") (Some (Polygon [])).

Definition barrios_index : gmap pystr feature :=
  index_features Latin1.data prop_key [centro; sol].
Definition distritos_index : gmap pystr feature :=
  index_features Latin1.data prop_key [retiro].
Definition blank_index : gmap pystr feature :=
  index_features Latin1.data prop_key [blank].

(** A record whose neighbourhood is missing, as [load_data] leaves it: the
    normalised neighbourhood is the empty string. *)
Definition unnamed : record :=
  MkRecord (Some (lit "PANADERIA")) (Some []) (Some (lit "RETIRO")) None None.

(** A record with a latitude and no longitude. *)
Definition half_located : record :=
  MkRecord (Some (lit "PANADERIA")) (Some (lit "CENTRO")) (Some (lit "RETIRO"))
           (Some (404 # 10)%Q) None.

(** Three records of one activity in C, and one record of another activity
    in each of B and A. *)
Definition ranking_df : list record :=
  [local "BAR" "B" "D"; local "PAN" "C" "D"; local "BAR" "A" "D";
   local "PAN" "C" "D"; local "PAN" "C" "D"].

(** Five bakeries in CENTRO, none in SALAMANCA. *)
Definition panaderias : list record :=
  [local "PANADERIA" "CENTRO" "CENTRO"; local "PANADERIA" "CENTRO" "CENTRO";
   local "BAR" "SALAMANCA" "SALAMANCA"; local "PANADERIA" "CENTRO" "CENTRO";
   local "PANADERIA" "CENTRO" "CENTRO"; local "PANADERIA" "CENTRO" "CENTRO"].

End Sample.

(* ================================================================= *)
(** * The rest of the script *)
(* ================================================================= *)

(** The order of the tier labels, as the label tuples list them; "Sin datos"
    never stands beside another label and is put below them. *)
Definition tier_rank (t : tier) : nat :=
  match t with
  | Sin_datos => 0
  | Muy_baja => 1
  | Baja => 2
  | Media => 3
  | Alta => 4
  end.

(** ** ASCII text *)

Definition is_ascii (c : N) : Prop := (c < 0x80)%N.

(** [str.upper] on an ASCII character. *)
Definition ascii_upper (c : N) : N :=
  if ((0x61 <=? c) && (c <=? 0x7A))%N then (c - 0x20)%N else c.

(** The ASCII characters [str.strip] removes: tab to carriage return, and
    the separators up to the space. *)
Definition ascii_space (c : N) : bool :=
  ((0x09 <=? c) && (c <=? 0x0D) || (0x1C <=? c) && (c <=? 0x20))%N.

(** What Unicode says about ASCII text: it is its own NFKD form, none of its
    characters is a combining character, and white space and upper case are
    the ASCII ones. *)
Definition agrees_on_ascii (U : unicode_data) : Prop :=
  (∀ s, Forall is_ascii s → nfkd U s = s)
  ∧ (∀ c, is_ascii c → combining U c = 0%N)
  ∧ (∀ c, is_ascii c → isspace U c = ascii_space c)
  ∧ (∀ s, Forall is_ascii s → upper U s = ascii_upper <$> s).

(** The mapping of [load_data] from the coordinate column names a file may
    use to ["lat"] and ["lon"], in the order of the dictionary. *)
Definition coord_mapping : list (pystr * pystr) :=
  [(lit "latitude", lit "lat"); (lit "Latitude", lit "lat");
   (lit "LATITUDE", lit "lat"); (lit "lat_centroide", lit "lat");
   (lit "latitud", lit "lat");
   (lit "longitude", lit "lon"); (lit "Longitude", lit "lon");
   (lit "LONGITUDE", lit "lon"); (lit "lon_centroide", lit "lon");
   (lit "longitud", lit "lon")].

(** The labels of [df.rename(columns={old_name: new_name})]. *)
Definition rename_column (old_name new_name : pystr) (columns : list pystr)
    : list pystr :=
  (λ c, if decide (c = old_name) then new_name else c) <$> columns.

(** The renaming loop of [load_data], on the column labels. *)
Definition rename_coordinates (columns : list pystr) : list pystr :=
  foldl (λ columns on,
           if bool_decide (on.1 ∈ columns)
           then rename_column on.1 on.2 columns else columns)
        columns coord_mapping.

(** [if name not in df.columns: df[name] = np.nan]: a new column goes to the
    end. *)
Definition ensure_column (name : pystr) (columns : list pystr) : list pystr :=
  if bool_decide (name ∈ columns) then columns else columns ++ [name].

(** The label a column of the file ends with: ["lat"] or ["lon"] for an
    alias, itself otherwise. *)
Definition canonical_column (c : pystr) : pystr :=
  match list_find (λ on, on.1 = c) coord_mapping with
  | Some (_, on) => on.2
  | None => c
  end.

(** The column labels of the frame of [load_data] after the renaming loop
    and the creation of the missing coordinate columns, from those of the
    file. *)
Definition load_data_columns (columns : list pystr) : list pystr :=
  ensure_column (lit "lon") (ensure_column (lit "lat")
    (rename_coordinates columns)).

(** ** The dataset file *)

Definition CSV_FILE : pystr := lit "actividadeconomica_enriquecido.csv".
Definition GOOGLE_DRIVE_FILE_ID : pystr := lit "14HcbItRNMbSxCbim5s0r9J7FJ6SrN7zW".

Definition urls_to_try : list pystr :=
  [lit "https://drive.usercontent.google.com/download?id="
     ++ GOOGLE_DRIVE_FILE_ID ++ lit "&export=download&confirm=t";
   lit "https://drive.google.com/uc?id="
     ++ GOOGLE_DRIVE_FILE_ID ++ lit "&export=download&confirm=t";
   lit "https://docs.google.com/uc?id="
     ++ GOOGLE_DRIVE_FILE_ID ++ lit "&export=download"].

(** What [requests.get] gives for a URL: an exception, or a response with its
    status code, its content-type header (if any) and the length of its
    content. *)
Record response := Response {
  status_code : Z;
  content_type : option pystr;
  content_length : N
}.

Inductive attempt :=
  | RequestFailed
  | Responded (r : response).

(** A run of the script goes on with a value, or halts at [st.stop()]. *)
Inductive script (A : Type) :=
  | Continue (a : A)
  | Stop.
Arguments Continue {A} a.
Arguments Stop {A}.

Fixpoint startswith (s prefix : pystr) : bool :=
  match prefix, s with
  | [], _ => true
  | _ :: _, [] => false
  | c :: prefix', d :: s' => (c =? d)%N && startswith s' prefix'
  end.

(** [needle in s] on strings. *)
Fixpoint contains (needle s : pystr) : bool :=
  startswith s needle
  || match s with
     | [] => false
     | _ :: s' => contains needle s'
     end.

(** [response.status_code == 200 and 'text/html' not in
    response.headers.get('content-type', '')] *)
Definition looks_like_csv (r : response) : bool :=
  (status_code r =? 200)%Z
  && negb (contains (lit "text/html") (default [] (content_type r))).

(** The loop over [urls_to_try]. The state is the local dataset file: [None]
    when there is none, its size when there is one (writing the file is
    taken to succeed). The result is the [success] flag, the file, and the
    URLs that were requested, in order. *)
Fixpoint try_urls (net : pystr → attempt) (urls : list pystr) (csv : option N)
    : bool * option N * list pystr :=
  match urls with
  | [] => (false, csv, [])
  | url :: urls' =>
      let continue csv :=
        let '(success, csv, requested) := try_urls net urls' csv in
        (success, csv, url :: requested) in
      match net url with
      | RequestFailed => continue csv
      | Responded r =>
          if looks_like_csv r then
            let csv := Some (content_length r) in
            if (1000000 <? content_length r)%N
            then (true, csv, [url])
            else continue None
          else continue csv
      end
  end.

(** An attempt the loop ends on: a response that looks like a CSV file and
    has more than 1,000,000 bytes. *)
Definition accepted (a : attempt) : bool :=
  match a with
  | RequestFailed => false
  | Responded r => looks_like_csv r && (1000000 <? content_length r)%N
  end.

(** [download_csv_from_drive(file_id, destination)] *)
Definition download_csv_from_drive (net : pystr → attempt) (csv : option N)
    : script unit * option N * list pystr :=
  match csv with
  | Some _ => (Continue (), csv, [])
  | None =>
      let '(success, csv, requested) := try_urls net urls_to_try csv in
      (if success then Continue () else Stop, csv, requested)
  end.

(** [ensure_dataset_available()] *)
Definition ensure_dataset_available (net : pystr → attempt) (csv : option N)
    : script pystr * option N * list pystr :=
  let '(downloaded, csv, requested) :=
    match csv with
    | None => download_csv_from_drive net csv
    | Some _ => (Continue (), csv, [])
    end in
  match downloaded with
  | Stop => (Stop, csv, requested)
  | Continue _ =>
      match csv with
      | Some size =>
          if (0 <? size)%N then (Continue CSV_FILE, csv, requested)
          else (Stop, csv, requested)
      | None => (Stop, csv, requested)
      end
  end.

Section Script.
Context (U : unicode_data).

(** The name under which [load_geojson] files a feature: the property
    [prop_key], else its lower-case spelling, else the first property. *)
Definition feature_name (prop_key : pystr) (feat : feature) : option pystr :=
  let props := properties feat in
  py_or (props_get props prop_key)
    (py_or (props_get props (lower U prop_key)) (head props ≫= snd)).

(** The key of a feature in the index, when it has a name. *)
Definition feature_key (prop_key : pystr) (feat : feature) : option pystr :=
  match feature_name prop_key feat with
  | None => None
  | Some name => Some (normalize_str U (Some name))
  end.

(** The list of activities offered for selection: the distinct values of
    the activity column that are not blank and not ["NAN"], sorted. *)
Definition actividades (df : list record) : list pystr :=
  merge_sort pystr_le
    (filter (λ x, truthy (strip U x) = true ∧ x ≠ lit "NAN")
            (unique pystr_eqb (omap desc_epigrafe df))).

End Script.

(* ================================================================= *)
(** * More sample data *)
(* ================================================================= *)

Module Fixtures.

(** A bakery of CENTRO that has both coordinates. *)
Definition located : record :=
  MkRecord (Some (lit "PANADERIA")) (Some (lit "CENTRO")) (Some (lit "RETIRO"))
           (Some (404 # 10)%Q) (Some (-37 # 10)%Q).

(** A network on which the first URL fails, the second answers with an HTML
    page and the third with a file of 2,000,000 bytes. *)
Definition net (url : pystr) : attempt :=
  if bool_decide (urls_to_try !! 2 = Some url)
  then Responded (Response 200 (Some (lit "text/csv")) 2000000)
  else if bool_decide (urls_to_try !! 1 = Some url)
  then Responded (Response 200 (Some (lit "text/html; charset=utf-8")) 5000)
  else RequestFailed.

(** The table of [Sample.ranking_df] for the activity PAN, by
    neighbourhood. *)
Definition ranking_rows : list opportunity :=
  [Opportunity (lit "A") 0 (Some Baja); Opportunity (lit "B") 0 (Some Baja);
   Opportunity (lit "C") 3 (Some Alta)].

End Fixtures.


(* ================================================================= *)
(** * Sample evaluations *)
(* ================================================================= *)

Example normalize_str_cafe :
  normalize_str Latin1.data (Some ([0x20] ++ lit "Caf" ++ [0xE9; 0x20]))%N
  = lit "CAFE".
Proof. reflexivity. Qed.

Example normalize_str_chamberi :
  normalize_str Latin1.data (Some (lit "Chamber" ++ [0xED]))%N = lit "CHAMBERI".
Proof. reflexivity. Qed.

Example quantile_labels_spread :
  quantile_labels [1; 2; 3; 4; 5; 6; 7; 8]%Z
  = Return (Some <$> [Muy_baja; Muy_baja; Baja; Baja; Media; Media; Alta; Alta]).
Proof. vm_compute. reflexivity. Qed.

Example quantile_labels_constant :
  quantile_labels [4; 4; 4]%Z = Return (replicate 3 (Some Sin_datos)).
Proof. reflexivity. Qed.

(** Three distinct counts with a repeated quartile edge: the 33rd and 67th
    percentiles decide. *)
Example quantile_labels_three_values :
  quantile_labels [0; 0; 1; 2]%Z
  = Return (Some <$> [Muy_baja; Muy_baja; Baja; Media]).
Proof. vm_compute. reflexivity. Qed.

(* ================================================================= *)
(** * The order on strings *)
(* ================================================================= *)

Lemma pystr_leb_refl (a : pystr) : pystr_leb a a = true.
Proof.
  induction a as [|x a IH]; simpl; [done|].
  rewrite N.ltb_irrefl, N.eqb_refl. exact IH.
Qed.

Lemma pystr_leb_total (a b : pystr) :
  pystr_leb a b = true ∨ pystr_leb b a = true.
Proof.
  revert b. induction a as [|x a IH]; intros [|y b]; simpl; auto.
  destruct (N.ltb_spec x y) as [Hxy|Hxy]; [auto|].
  destruct (N.ltb_spec y x) as [Hyx|Hyx]; [auto|].
  assert (x = y) as -> by lia.
  rewrite N.eqb_refl. apply IH.
Qed.

Lemma pystr_leb_trans (a b c : pystr) :
  pystr_leb a b = true → pystr_leb b c = true → pystr_leb a c = true.
Proof.
  revert b c. induction a as [|x a IH]; intros [|y b] [|z c]; simpl; try done.
  destruct (N.ltb_spec x y) as [Hxy|Hxy].
  - intros _. destruct (N.ltb_spec y z) as [Hyz|Hyz].
    + intros _. destruct (N.ltb_spec x z); [done|lia].
    + destruct (N.eqb_spec y z) as [->|]; [|done].
      intros _. destruct (N.ltb_spec x z); [done|lia].
  - destruct (N.eqb_spec x y) as [->|]; [|done].
    intros Hab. destruct (N.ltb_spec y z) as [Hyz|Hyz]; [done|].
    destruct (N.eqb_spec y z) as [->|]; [|done].
    apply IH, Hab.
Qed.

Lemma pystr_leb_antisym (a b : pystr) :
  pystr_leb a b = true → pystr_leb b a = true → a = b.
Proof.
  revert b. induction a as [|x a IH]; intros [|y b]; simpl; try done.
  destruct (N.ltb_spec x y) as [Hxy|Hxy].
  - intros _. destruct (N.ltb_spec y x); [lia|].
    destruct (N.eqb_spec y x); [lia|done].
  - destruct (N.eqb_spec x y) as [->|]; [|done].
    rewrite N.ltb_irrefl, N.eqb_refl. intros H1 H2. f_equal. by apply IH.
Qed.

#[global] Instance pystr_le_total : Total pystr_le.
Proof. intros a b. apply pystr_leb_total. Qed.
#[global] Instance pystr_le_trans : Transitive pystr_le.
Proof. intros a b c. apply pystr_leb_trans. Qed.
#[global] Instance pystr_le_antisym : AntiSymm (=) pystr_le.
Proof. intros a b. apply pystr_leb_antisym. Qed.
#[global] Instance pystr_le_refl : Reflexive pystr_le.
Proof. intros a. apply pystr_leb_refl. Qed.

#[global] Instance opportunity_le_total : Total opportunity_le.
Proof.
  intros a b. unfold opportunity_le.
  destruct (Z.lt_trichotomy (n_locales a) (n_locales b)) as [?|[Heq|?]];
    [auto| |auto].
  destruct (pystr_leb_total (area a) (area b)); [left|right]; right; auto.
Qed.

#[global] Instance opportunity_le_trans : Transitive opportunity_le.
Proof.
  intros a b c [Hab|[Hab Hab']] [Hbc|[Hbc Hbc']]; unfold opportunity_le.
  - left; lia.
  - left; lia.
  - left; lia.
  - right. split; [lia|]. by etrans.
Qed.

(* ================================================================= *)
(** * Text normalisation *)
(* ================================================================= *)

Lemma normalize_str_missing (U : unicode_data) : normalize_str U None = [].
Proof. reflexivity. Qed.

(** C7. A missing value is normalised to the empty string, but
    normalisation is not idempotent: U+00B4 ACUTE ACCENT is not white space,
    so [strip] keeps it; its compatibility decomposition is a space followed
    by the combining acute accent, and dropping the combining character
    leaves a space, which a second normalisation strips. *)
Theorem normalize_str_acute_accent :
  normalize_str Latin1.data None = []
  ∧ normalize_str Latin1.data (Some [0xB4]%N) = [0x20]%N
  ∧ normalize_str Latin1.data (Some (normalize_str Latin1.data (Some [0xB4]%N)))
    = []
  ∧ normalize_str Latin1.data (Some (normalize_str Latin1.data (Some [0xB4]%N)))
    ≠ normalize_str Latin1.data (Some [0xB4]%N).
Proof. repeat split; done. Qed.

(** The same for any Unicode data that agrees with the character database
    on the acute accent, the space and the combining acute accent. *)
Lemma normalize_str_not_idempotent (U : unicode_data) :
  isspace U 0xB4%N = false → isspace U 0x20%N = true →
  nfkd U [0xB4]%N = [0x20; 0x301]%N → nfkd U [] = [] →
  combining U 0x20%N = 0%N → combining U 0x301%N ≠ 0%N →
  upper U [0x20]%N = [0x20]%N → upper U [] = [] →
  normalize_str U (Some [0xB4]%N) = [0x20]%N
  ∧ normalize_str U (Some (normalize_str U (Some [0xB4]%N))) = [].
Proof.
  intros Hacute Hspace Hnfkd Hnfkd0 Hc Hc' Hup Hup0.
  assert (H1 : normalize_str U (Some [0xB4]%N) = [0x20]%N).
  { unfold normalize_str, strip, rstrip. simpl. rewrite Hacute. simpl.
    rewrite Hacute. change (reverse [0xB4%N]) with [0xB4%N].
    rewrite Hnfkd, !filter_cons, filter_nil.
    rewrite decide_True by done. by rewrite decide_False by done. }
  split; [done|]. rewrite H1.
  unfold normalize_str, strip, rstrip. simpl. rewrite Hspace.
  change (reverse (lstrip U (reverse []))) with (@nil N).
  by rewrite Hnfkd0, filter_nil.
Qed.

(** The script depends on idempotence: the activity column is normalised
    when the data is loaded, and the selected activity, taken from that
    column, is normalised again before the comparison. An activity that ends
    in an acute accent is offered for selection and then selects no record. *)
Lemma df_plot_misses_selected_activity :
  let df := normalize_columns Latin1.data
              [MkRecord (Some (lit "CAFE" ++ [0xB4]%N)) (Some (lit "SOL"))
                        (Some (lit "CENTRO")) None None] in
  desc_epigrafe <$> df = [Some (lit "CAFE ")]
  ∧ df_plot Latin1.data (lit "CAFE ") df = [].
Proof. split; reflexivity. Qed.

(* ================================================================= *)
(** * The boundary index *)
(* ================================================================= *)

Section Boundary.
Context (U : unicode_data).

Lemma load_geojson_no_path fs key : load_geojson U fs [] key = Return (None, None).
Proof. reflexivity. Qed.

Lemma load_geojson_absent fs path key :
  fs !! path = None → load_geojson U fs path key = Return (None, None).
Proof.
  intros Hp. unfold load_geojson. rewrite Hp.
  by destruct (negb (truthy path) || _).
Qed.

Lemma load_geojson_present fs path key f :
  path ≠ [] → fs !! path = Some f →
  load_geojson U fs path key =
    match f with
    | Unreadable => Raise OSError
    | NotJson => Raise JSONDecodeError
    | Json features => Return (Some features, Some (index_features U key features))
    end.
Proof.
  intros Hne Hp. unfold load_geojson. rewrite Hp.
  destruct path; [done|]. reflexivity.
Qed.

Lemma complete_coordinates_no_index df :
  complete_coordinates U None None df = df.
Proof.
  unfold complete_coordinates. simpl. by rewrite andb_false_r.
Qed.

Lemma index_truthy_empty : index_truthy (Some ∅) = index_truthy None.
Proof. reflexivity. Qed.

Lemma complete_coordinates_empty_barrios d df :
  complete_coordinates U None d df = complete_coordinates U (Some ∅) d df.
Proof. reflexivity. Qed.

Lemma complete_coordinates_empty_distritos b df :
  complete_coordinates U b None df = complete_coordinates U b (Some ∅) df.
Proof. reflexivity. Qed.

End Boundary.

(* ================================================================= *)
(** * Coordinate completion *)
(* ================================================================= *)

Section Completion.
Context (U : unicode_data).

Implicit Types (index : gmap pystr feature) (r : record) (df : list record).

Lemma fill_pass_nil index col mask : fill_pass U index col mask [] = [].
Proof. by destruct mask. Qed.

(** A pass works row by row: the head of the frame is treated on its own. *)
Lemma fill_pass_cons index col b mask r df :
  fill_pass U index col (b :: mask) (r :: df)
  = (if b then
       match area_centroid U index (col r) with
       | (Some la, Some lo) => set_lon (set_lat r (Some la)) (Some lo)
       | _ => r
       end
     else r) :: fill_pass U index col mask df.
Proof.
  unfold fill_pass. destruct b; simpl; [|done].
  destruct (area_centroid U index (col r)) as [[la|] [lo|]]; simpl;
    by destruct r.
Qed.

Lemma fill_pass_rowwise index col df :
  fill_pass U index col (mask_centroid df) df = fill_row U index col <$> df.
Proof.
  induction df as [|r df IH]; [done|].
  cbn [mask_centroid fmap list_fmap]. rewrite fill_pass_cons.
  fold (mask_centroid df). rewrite IH. done.
Qed.

Lemma fill_row_complete index col r :
  isna (lat r) || isna (lon r) = false → fill_row U index col r = r.
Proof. unfold fill_row. by intros ->. Qed.

Lemma fill_row_empty_index col r : fill_row U ∅ col r = r.
Proof.
  unfold fill_row, area_centroid. rewrite lookup_empty.
  by repeat case_match.
Qed.

Lemma fill_rows_no_missing index col df :
  existsb id (mask_centroid df) = false → fill_row U index col <$> df = df.
Proof.
  induction df as [|r df IH]; [done|]. cbn.
  intros [Hr Hdf]%orb_false_iff. unfold id in Hr.
  by rewrite fill_row_complete, IH.
Qed.

Lemma index_falsy_default (index : option (gmap pystr feature)) :
  index_truthy index = false → default ∅ index = ∅.
Proof.
  destruct index as [m|]; [|done]. simpl.
  intros Hm%negb_false_iff. by apply bool_decide_eq_true in Hm.
Qed.

Lemma fill_rows_falsy_index (index : option (gmap pystr feature)) col df :
  index_truthy index = false → fill_row U (default ∅ index) col <$> df = df.
Proof.
  intros ->%index_falsy_default. induction df as [|r df IH]; [done|].
  cbn. by rewrite fill_row_empty_index, IH.
Qed.

(** Each step is its pass on every row, also when the step is skipped:
    a skipped pass would not have changed any row. *)
Lemma barrio_step_rowwise (barrios_index : option (gmap pystr feature)) df :
  barrio_step U barrios_index (mask_centroid df) df
  = fill_row U (default ∅ barrios_index) desc_barrio_local <$> df.
Proof.
  unfold barrio_step. destruct (index_truthy barrios_index) eqn:Hb.
  - apply fill_pass_rowwise.
  - by rewrite fill_rows_falsy_index.
Qed.

Lemma distrito_step_rowwise (distritos_index : option (gmap pystr feature)) df :
  distrito_step U distritos_index df
  = fill_row U (default ∅ distritos_index) desc_distrito_local <$> df.
Proof.
  unfold distrito_step.
  destruct (existsb id (mask_centroid df)) eqn:Hany; simpl.
  - destruct (index_truthy distritos_index) eqn:Hd.
    + apply fill_pass_rowwise.
    + by rewrite fill_rows_falsy_index.
  - by rewrite fill_rows_no_missing.
Qed.

(** The whole completion treats every record on its own: the neighbourhood
    pass, then the district pass. *)
Lemma complete_coordinates_rowwise
    (barrios_index distritos_index : option (gmap pystr feature)) df :
  complete_coordinates U barrios_index distritos_index df
  = complete_row U (default ∅ barrios_index) (default ∅ distritos_index) <$> df.
Proof.
  trans (fill_row U (default ∅ distritos_index) desc_distrito_local
           <$> (fill_row U (default ∅ barrios_index) desc_barrio_local <$> df));
    [|by rewrite <-list_fmap_compose].
  unfold complete_coordinates.
  destruct (existsb id (mask_centroid df)) eqn:Hany; simpl.
  - destruct (index_truthy barrios_index || index_truthy distritos_index)
      eqn:Hbd.
    + by rewrite barrio_step_rowwise, distrito_step_rowwise.
    + apply orb_false_iff in Hbd as [Hb' Hd'].
      by rewrite !fill_rows_falsy_index.
  - by rewrite !fill_rows_no_missing by (by rewrite ?fill_rows_no_missing).
Qed.

Lemma complete_coordinates_lookup
    (barrios_index distritos_index : option (gmap pystr feature)) df i :
  complete_coordinates U barrios_index distritos_index df !! i
  = complete_row U (default ∅ barrios_index) (default ∅ distritos_index)
      <$> df !! i.
Proof. by rewrite complete_coordinates_rowwise, list_lookup_fmap. Qed.

Lemma complete_coordinates_length
    (barrios_index distritos_index : option (gmap pystr feature)) df :
  length (complete_coordinates U barrios_index distritos_index df) = length df.
Proof. by rewrite complete_coordinates_rowwise, length_fmap. Qed.

(** A valid centroid fills both coordinates of a row that misses one. *)
Lemma fill_row_valid index col r la lo :
  isna (lat r) || isna (lon r) = true →
  area_centroid U index (col r) = (Some la, Some lo) →
  fill_row U index col r = set_lon (set_lat r (Some la)) (Some lo).
Proof. unfold fill_row. by intros -> ->. Qed.

(** A centroid with a missing component leaves the row as it is. *)
Lemma fill_row_nan index col r :
  (area_centroid U index (col r)).1 = None
  ∨ (area_centroid U index (col r)).2 = None →
  fill_row U index col r = r.
Proof.
  unfold fill_row. destruct (area_centroid U index (col r)) as [[la|] [lo|]];
    simpl; intros [?|?]; by repeat case_match.
Qed.

(** Whatever a pass changes, it changes to two defined coordinates. *)
Lemma fill_row_cases index col r :
  fill_row U index col r = r
  ∨ ∃ la lo, isna (lat r) || isna (lon r) = true
             ∧ area_centroid U index (col r) = (Some la, Some lo)
             ∧ fill_row U index col r = set_lon (set_lat r (Some la)) (Some lo).
Proof.
  unfold fill_row. destruct (isna (lat r) || isna (lon r)); [|by left].
  destruct (area_centroid U index (col r)) as [[la|] [lo|]]; eauto 10.
Qed.

Lemma area_centroid_lookup index name feat :
  normalize_str U name ≠ [] →
  index !! normalize_str U name = Some feat →
  area_centroid U index name = feature_centroid feat.
Proof.
  intros Hne Hf. unfold area_centroid. rewrite Hf.
  by destruct (normalize_str U name).
Qed.

Lemma area_centroid_malformed index name feat :
  index !! normalize_str U name = Some feat →
  (feature_centroid feat).1 = None ∨ (feature_centroid feat).2 = None →
  (area_centroid U index name).1 = None ∨ (area_centroid U index name).2 = None.
Proof.
  intros Hf Hnan. unfold area_centroid. rewrite Hf.
  destruct (truthy _); [done|by left].
Qed.

Lemma area_centroid_unmatched index name :
  index !! normalize_str U name = None →
  area_centroid U index name = (None, None).
Proof. intros Hf. unfold area_centroid. rewrite Hf. by case_match. Qed.

End Completion.

(* ================================================================= *)
(** * Properties of the boundary index and of coordinate completion *)
(* ================================================================= *)

(** C8 (as stated, fails). A boundary file that exists but cannot be opened
    makes [load_geojson] raise: it returns no mapping at all, empty or
    otherwise. *)
Lemma load_geojson_unreadable_raises :
  load_geojson Latin1.data {[Sample.barrios_path := Unreadable]}
               Sample.barrios_path Sample.prop_key = Raise OSError
  ∧ ∀ geo, load_geojson Latin1.data {[Sample.barrios_path := Unreadable]}
                        Sample.barrios_path Sample.prop_key
           ≠ Return (geo, Some ∅).
Proof. split; [reflexivity|]. intros geo. discriminate. Qed.

(** C8 (amended). When the path is empty or nothing exists at it,
    [load_geojson] returns [(None, None)] without raising, and coordinate
    completion treats the missing index like an empty one: that tier is
    skipped. A file that exists but cannot be opened or decoded is not
    caught: the exception leaves the loader. *)
Theorem load_geojson_missing_file (U : unicode_data) (fs : gmap pystr file)
    (path prop_key : pystr) :
  (path = [] ∨ fs !! path = None →
     load_geojson U fs path prop_key = Return (None, None))
  ∧ (path ≠ [] → fs !! path = Some Unreadable →
     load_geojson U fs path prop_key = Raise OSError)
  ∧ (path ≠ [] → fs !! path = Some NotJson →
     load_geojson U fs path prop_key = Raise JSONDecodeError)
  ∧ (∀ d df, complete_coordinates U None d df
             = complete_coordinates U (Some ∅) d df
             ∧ complete_coordinates U None d df = distrito_step U d df)
  ∧ (∀ b df, complete_coordinates U b None df
             = complete_coordinates U b (Some ∅) df)
  ∧ (∀ df, complete_coordinates U None None df = df).
Proof.
  split_and!.
  - intros [->|Hp]; [apply load_geojson_no_path|by apply load_geojson_absent].
  - intros Hne Hp. by rewrite (load_geojson_present U fs path prop_key Unreadable).
  - intros Hne Hp. by rewrite (load_geojson_present U fs path prop_key NotJson).
  - intros d df. split; [done|].
    rewrite complete_coordinates_rowwise, distrito_step_rowwise.
    unfold complete_row. simpl.
    apply list_fmap_ext. intros i r _. by rewrite fill_row_empty_index.
  - done.
  - apply complete_coordinates_no_index.
Qed.

Lemma load_geojson_missing_file_witness :
  load_geojson Latin1.data ∅ Sample.barrios_path Sample.prop_key
  = Return (None, None).
Proof.
  apply (load_geojson_missing_file Latin1.data ∅ Sample.barrios_path
           Sample.prop_key).
  right. reflexivity.
Defined.

Section CompletionProperties.
Context (U : unicode_data).

Implicit Types (r : record) (df : list record).

(** C5 (amended). A record that misses a coordinate and whose normalised
    neighbourhood name is not empty and is the name of a boundary with a
    valid centroid gets exactly that centroid, whatever the district index
    holds. A record that still misses a coordinate after the neighbourhood
    pass and whose normalised district name is not empty and is the name of
    a boundary with a valid centroid gets the district centroid. *)
Theorem completion_fallback_order :
  (∀ (barrios_index : gmap pystr feature)
     (distritos_index : option (gmap pystr feature)) df i r feat la lo,
     df !! i = Some r →
     isna (lat r) || isna (lon r) = true →
     normalize_str U (desc_barrio_local r) ≠ [] →
     barrios_index !! normalize_str U (desc_barrio_local r) = Some feat →
     feature_centroid feat = (Some la, Some lo) →
     complete_coordinates U (Some barrios_index) distritos_index df !! i
     = Some (MkRecord (desc_epigrafe r) (desc_barrio_local r)
                      (desc_distrito_local r) (Some la) (Some lo)))
  ∧ (∀ (barrios_index : option (gmap pystr feature))
       (distritos_index : gmap pystr feature) df i r1 feat la lo,
       barrio_step U barrios_index (mask_centroid df) df !! i = Some r1 →
       isna (lat r1) || isna (lon r1) = true →
       normalize_str U (desc_distrito_local r1) ≠ [] →
       distritos_index !! normalize_str U (desc_distrito_local r1) = Some feat →
       feature_centroid feat = (Some la, Some lo) →
       complete_coordinates U barrios_index (Some distritos_index) df !! i
       = Some (MkRecord (desc_epigrafe r1) (desc_barrio_local r1)
                        (desc_distrito_local r1) (Some la) (Some lo))).
Proof.
  split.
  - intros B d df i r feat la lo Hi Hmiss Hne Hfeat Hc.
    rewrite complete_coordinates_lookup, Hi. simpl. f_equal.
    unfold complete_row.
    rewrite (fill_row_valid U B _ r la lo Hmiss)
      by (by rewrite (area_centroid_lookup U B _ feat)).
    by rewrite fill_row_complete.
  - intros b D df i r1 feat la lo Hi Hmiss Hne Hfeat Hc.
    rewrite barrio_step_rowwise, list_lookup_fmap in Hi.
    rewrite complete_coordinates_lookup.
    destruct (df !! i) as [r|]; [|done]. simpl in *.
    injection Hi as Hi. unfold complete_row. rewrite Hi. f_equal.
    by rewrite (fill_row_valid U D _ r1 la lo Hmiss)
      by (by rewrite (area_centroid_lookup U D _ feat)).
Qed.

(** C6. A centroid with a missing component is never written. In either
    pass, a record whose boundary in that pass has such a centroid is left as
    it is; if that holds for the neighbourhood and the district does not give
    a valid centroid either, the whole completion leaves the record as it is;
    and a record the completion does change ends with both coordinates
    defined. *)
Theorem nan_centroid_never_written :
  (∀ (index : gmap pystr feature) (col : record → option pystr) df i r feat,
     df !! i = Some r →
     index !! normalize_str U (col r) = Some feat →
     (feature_centroid feat).1 = None ∨ (feature_centroid feat).2 = None →
     fill_pass U index col (mask_centroid df) df !! i = Some r)
  ∧ (∀ (barrios_index distritos_index : gmap pystr feature) df i r fb,
       df !! i = Some r →
       barrios_index !! normalize_str U (desc_barrio_local r) = Some fb →
       (feature_centroid fb).1 = None ∨ (feature_centroid fb).2 = None →
       (distritos_index !! normalize_str U (desc_distrito_local r) = None
        ∨ ∃ fd, distritos_index !! normalize_str U (desc_distrito_local r)
                = Some fd
                ∧ ((feature_centroid fd).1 = None
                   ∨ (feature_centroid fd).2 = None)) →
       complete_coordinates U (Some barrios_index) (Some distritos_index) df
         !! i = Some r)
  ∧ (∀ (barrios_index distritos_index : option (gmap pystr feature))
       df i r r',
       df !! i = Some r →
       complete_coordinates U barrios_index distritos_index df !! i = Some r' →
       r' = r ∨ (notna (lat r') = true ∧ notna (lon r') = true)).
Proof.
  split_and!.
  - intros index col df i r feat Hi Hfeat Hnan.
    rewrite fill_pass_rowwise, list_lookup_fmap, Hi. simpl. f_equal.
    apply fill_row_nan. by eapply area_centroid_malformed.
  - intros B D df i r fb Hi Hfb Hnanb Hd.
    rewrite complete_coordinates_lookup, Hi. simpl. f_equal.
    unfold complete_row.
    rewrite (fill_row_nan U B)
      by (by eapply area_centroid_malformed).
    apply fill_row_nan. destruct Hd as [Hd|(fd & Hfd & Hnand)].
    + left. by rewrite area_centroid_unmatched.
    + by eapply area_centroid_malformed.
  - intros b d df i r r' Hi Hi'.
    rewrite complete_coordinates_lookup, Hi in Hi'. simpl in Hi'.
    injection Hi' as <-. unfold complete_row.
    destruct (fill_row_cases U (default ∅ b) desc_barrio_local r)
      as [->|(la & lo & _ & _ & ->)].
    + destruct (fill_row_cases U (default ∅ d) desc_distrito_local r)
        as [->|(la & lo & _ & _ & ->)]; [by left|by right].
    + right. by rewrite fill_row_complete.
Qed.

(** C10. A pass writes both coordinates together: a record with exactly one
    coordinate defined whose neighbourhood has a valid centroid ends with the
    latitude and the longitude of that centroid, the coordinate it had being
    replaced; when the neighbourhood pass leaves it as it is and its district
    has a valid centroid, the same holds with the district centroid. *)
Theorem completion_overwrites_both :
  (∀ (barrios_index distritos_index : option (gmap pystr feature))
     df i r la lo,
     df !! i = Some r →
     notna (lat r) ≠ notna (lon r) →
     area_centroid U (default ∅ barrios_index) (desc_barrio_local r)
     = (Some la, Some lo) →
     ∃ r', complete_coordinates U barrios_index distritos_index df !! i
           = Some r'
           ∧ lat r' = Some la ∧ lon r' = Some lo
           ∧ area_fields r' = area_fields r)
  ∧ (∀ (barrios_index distritos_index : option (gmap pystr feature))
       df i r la lo,
       df !! i = Some r →
       notna (lat r) ≠ notna (lon r) →
       barrio_step U barrios_index (mask_centroid df) df !! i = Some r →
       area_centroid U (default ∅ distritos_index) (desc_distrito_local r)
       = (Some la, Some lo) →
       ∃ r', complete_coordinates U barrios_index distritos_index df !! i
             = Some r'
             ∧ lat r' = Some la ∧ lon r' = Some lo
             ∧ area_fields r' = area_fields r).
Proof.
  assert (Hmiss : ∀ r, notna (lat r) ≠ notna (lon r) →
                       isna (lat r) || isna (lon r) = true).
  { intros r. unfold isna. by destruct (lat r), (lon r). }
  split.
  - intros b d df i r la lo Hi Hone Hc.
    rewrite complete_coordinates_lookup, Hi. simpl.
    eexists. split; [done|]. unfold complete_row.
    rewrite (fill_row_valid U _ _ r la lo) by auto.
    by rewrite fill_row_complete.
  - intros b d df i r la lo Hi Hone Hstep Hc.
    rewrite barrio_step_rowwise, list_lookup_fmap, Hi in Hstep.
    injection Hstep as Hstep.
    rewrite complete_coordinates_lookup, Hi. simpl.
    eexists. split; [done|]. unfold complete_row. rewrite Hstep.
    by rewrite (fill_row_valid U _ _ r la lo) by auto.
Qed.

End CompletionProperties.

(** C5 (as stated, fails). A record whose neighbourhood is missing has the
    empty string as normalised neighbourhood name. A boundary file with a
    feature named by a single space indexes that feature under the empty
    string, and its centroid is valid; yet the guard on the empty name makes
    the neighbourhood pass skip the record, whose coordinates stay
    undefined. *)
Lemma blank_neighbourhood_not_filled :
  load_geojson Latin1.data {[Sample.barrios_path := Json [Sample.blank]]}
               Sample.barrios_path Sample.prop_key
  = Return (Some [Sample.blank], Some Sample.blank_index)
  ∧ isna (lat Sample.unnamed) = true
  ∧ Sample.blank_index
      !! normalize_str Latin1.data (desc_barrio_local Sample.unnamed)
    = Some Sample.blank
  ∧ feature_centroid Sample.blank = (Some (199 # 5)%Q, Some (-16 # 5)%Q)
  ∧ complete_coordinates Latin1.data (Some Sample.blank_index) None
      [Sample.unnamed] = [Sample.unnamed].
Proof. split_and!; by vm_compute. Qed.

Lemma completion_fallback_order_witness :
  complete_coordinates Latin1.data (Some Sample.barrios_index)
      (Some Sample.distritos_index) [Sample.half_located] !! 0
  = Some (MkRecord (Some (lit "PANADERIA")) (Some (lit "CENTRO"))
                   (Some (lit "RETIRO")) (Some (199 # 5)%Q) (Some (-16 # 5)%Q))
  ∧ complete_coordinates Latin1.data (Some Sample.barrios_index)
      (Some Sample.distritos_index) [Sample.local "BAR" "SOL" "RETIRO"] !! 0
    = Some (MkRecord (Some (lit "BAR")) (Some (lit "SOL"))
                     (Some (lit "RETIRO")) (Some (240 # 5)%Q) (Some (40 # 5)%Q)).
Proof.
  split.
  - apply (proj1 (completion_fallback_order Latin1.data) Sample.barrios_index
             (Some Sample.distritos_index) [Sample.half_located] 0
             Sample.half_located Sample.centro).
    + reflexivity.
    + reflexivity.
    + vm_compute. discriminate.
    + vm_compute. reflexivity.
    + vm_compute. reflexivity.
  - apply (proj2 (completion_fallback_order Latin1.data)
             (Some Sample.barrios_index) Sample.distritos_index
             [Sample.local "BAR" "SOL" "RETIRO"] 0
             (Sample.local "BAR" "SOL" "RETIRO") Sample.retiro).
    + vm_compute. reflexivity.
    + reflexivity.
    + vm_compute. discriminate.
    + vm_compute. reflexivity.
    + vm_compute. reflexivity.
Defined.

Lemma nan_centroid_never_written_witness :
  complete_coordinates Latin1.data (Some Sample.barrios_index)
      (Some Sample.distritos_index) [Sample.local "BAR" "SOL" "LATINA"] !! 0
  = Some (Sample.local "BAR" "SOL" "LATINA").
Proof.
  apply (proj1 (proj2 (nan_centroid_never_written Latin1.data))
           Sample.barrios_index Sample.distritos_index
           [Sample.local "BAR" "SOL" "LATINA"] 0
           (Sample.local "BAR" "SOL" "LATINA") Sample.sol).
  - reflexivity.
  - vm_compute. reflexivity.
  - left. vm_compute. reflexivity.
  - left. vm_compute. reflexivity.
Defined.

Lemma completion_overwrites_both_witness :
  ∃ r', complete_coordinates Latin1.data (Some Sample.barrios_index) None
          [Sample.half_located] !! 0 = Some r'
        ∧ lat r' = Some (199 # 5)%Q ∧ lon r' = Some (-16 # 5)%Q
        ∧ area_fields r' = area_fields Sample.half_located.
Proof.
  apply (proj1 (completion_overwrites_both Latin1.data)
           (Some Sample.barrios_index) None [Sample.half_located] 0
           Sample.half_located).
  - reflexivity.
  - vm_compute. discriminate.
  - vm_compute. reflexivity.
Defined.

(** The malformed geometries [feature_centroid] answers with [(nan, nan)]:
    no geometry, a geometry of another type, a polygon without a ring, an
    empty ring, points of unequal length, points with fewer than two
    numbers. *)
Lemma feature_centroid_malformed props :
  feature_centroid (Feature props None) = (None, None)
  ∧ feature_centroid (Feature props (Some OtherGeometry)) = (None, None)
  ∧ feature_centroid (Feature props (Some (Polygon []))) = (None, None)
  ∧ feature_centroid (Feature props (Some (Polygon [[]]))) = (None, None)
  ∧ feature_centroid (Feature props (Some (MultiPolygon [[]]))) = (None, None)
  ∧ feature_centroid
      (Feature props (Some (Polygon [[[Some 1%Q; Some 2%Q]; [Some 3%Q]]])))
    = (None, None)
  ∧ feature_centroid
      (Feature props (Some (Polygon [[[Some 1%Q]; [Some 3%Q]]])))
    = (None, None).
Proof. split_and!; reflexivity. Qed.

(** A point with a [NaN] latitude gives a centroid with a [NaN] latitude
    and a defined longitude; such a centroid is not written either. *)
Lemma feature_centroid_half_nan props :
  feature_centroid
    (Feature props (Some (Polygon [[[Some 1%Q; None]; [Some 3%Q; Some 4%Q]]])))
  = (None, Some (4 # 2)%Q).
Proof. reflexivity. Qed.

(* ================================================================= *)
(** * Distinct values *)
(* ================================================================= *)

Section unique.
Context {A : Type} (eqb : A → A → bool).

Lemma unique_incl l x : x ∈ unique eqb l → x ∈ l.
Proof.
  revert x. induction l as [|a l IH]; intros x; simpl; [done|].
  rewrite !elem_of_cons, list_elem_of_filter.
  intros [->|[_ Hx]]; [by left|right; auto].
Qed.

Lemma head_unique l : head (unique eqb l) = head l.
Proof. by destruct l. Qed.

Lemma length_unique_le l : length (unique eqb l) ≤ length l.
Proof.
  induction l as [|a l IH]; simpl; [done|].
  pose proof (length_filter (λ y, eqb a y = false) (unique eqb l)). lia.
Qed.

(** Every value is represented among the distinct ones. *)
Lemma unique_covers l x :
  (∀ a, eqb a a = true) →
  (∀ a b c, eqb a b = true → eqb b c = true → eqb a c = true) →
  x ∈ l → ∃ y, y ∈ unique eqb l ∧ eqb y x = true.
Proof.
  intros Hrefl Htrans. induction l as [|a l IH]; simpl; [by intros ?%elem_of_nil|].
  intros [->|Hx]%elem_of_cons.
  - exists a. split; [left|]; auto.
  - destruct (IH Hx) as (y & Hy & Hyx).
    destruct (eqb a y) eqn:Hay.
    + exists a. split; [left|]; eauto.
    + exists y. split; [|done]. right. by apply list_elem_of_filter.
Qed.

Context (eqb_eq : ∀ x y, eqb x y = true ↔ x = y).

Lemma elem_of_unique l x : x ∈ unique eqb l ↔ x ∈ l.
Proof.
  split; [apply unique_incl|].
  intros Hx. destruct (unique_covers l x) as (y & Hy & Hyx); [| |done|].
  - intros a. by apply eqb_eq.
  - intros a b c ->%eqb_eq ->%eqb_eq. by apply eqb_eq.
  - by apply eqb_eq in Hyx as ->.
Qed.

Lemma NoDup_unique l : NoDup (unique eqb l).
Proof.
  induction l as [|a l IH]; simpl; [constructor|].
  apply NoDup_cons. split; [|by apply NoDup_filter].
  rewrite list_elem_of_filter. intros [Hne _].
  assert (eqb a a = true) by by apply eqb_eq. congruence.
Qed.

End unique.

Lemma pystr_eqb_eq (a b : pystr) : pystr_eqb a b = true ↔ a = b.
Proof. unfold pystr_eqb. apply bool_decide_eq_true. Qed.

Lemma nunique_all_equal (s : list Z) (v : Z) :
  s ≠ [] → Forall (λ x, x = v) s → nunique s = 1.
Proof.
  intros Hne Hall. unfold nunique.
  assert (Hu : ∀ s, Forall (λ x, x = v) s → s ≠ [] → unique Z.eqb s = [v]).
  { clear. induction s as [|x s IH]; [done|].
    intros [-> Hs]%Forall_cons _. simpl. destruct s as [|y s]; [done|].
    rewrite IH by done. rewrite filter_cons, Z.eqb_refl.
    by rewrite decide_False by done. }
  by rewrite Hu.
Qed.

(* ================================================================= *)
(** * Order statistics and quantiles *)
(* ================================================================= *)

Lemma sorted_series (s : list Z) :
  StronglySorted Z.le (merge_sort Z.le s) ∧ merge_sort Z.le s ≡ₚ s.
Proof.
  split; [|apply merge_sort_Permutation].
  apply StronglySorted_merge_sort; [apply _|].
  intros x y. lia.
Qed.

Lemma sorted_first_le (a : list Z) (x : Z) :
  StronglySorted Z.le a → x ∈ a → (nthZ a 0 <= x)%Z.
Proof.
  intros Ha Hx. destruct Ha as [|y a Ha Hy]; [by apply elem_of_nil in Hx|].
  unfold nthZ. simpl. apply elem_of_cons in Hx as [->|Hx]; [lia|].
  by eapply Forall_forall in Hy.
Qed.

Lemma sorted_last_ge (a : list Z) (x : Z) :
  StronglySorted Z.le a → x ∈ a →
  (x <= nthZ a (Z.of_nat (length a) - 1))%Z.
Proof.
  unfold nthZ. intros Ha. revert x.
  induction Ha as [|y a Ha IH Hy]; intros x Hx; [by apply elem_of_nil in Hx|].
  replace (Z.to_nat (Z.of_nat (length (y :: a)) - 1)) with (length a)
    by (simpl; lia).
  destruct a as [|z a]; simpl.
  - apply elem_of_cons in Hx as [->|Hx]; [lia|by apply elem_of_nil in Hx].
  - specialize (IH z (ltac:(left)) ) as IHz.
    replace (Z.to_nat (Z.of_nat (length (z :: a)) - 1)) with (length a)
      in IH, IHz by (simpl; lia).
    apply elem_of_cons in Hx as [->|Hx].
    + apply Forall_cons in Hy as [Hyz _]. simpl in IHz. lia.
    + apply IH in Hx. by simpl in Hx.
Qed.

Lemma quantile_at_0 (s : list Z) (q : Q) :
  (q == 0)%Q → (quantile s q == inject_Z (nthZ (merge_sort Z.le s) 0))%Q.
Proof.
  intros Hq. unfold quantile.
  set (a := merge_sort Z.le s). set (n := Z.of_nat (length a)).
  assert (Hpos : (q * inject_Z (n - 1) == 0)%Q) by (rewrite Hq; ring).
  assert (Hlo : Qfloor (q * inject_Z (n - 1)) = 0%Z)
    by (by rewrite (Qfloor_comp _ _ Hpos)).
  rewrite Hlo, Hpos. change (inject_Z 0) with 0%Q. ring.
Qed.

Lemma quantile_at_1 (s : list Z) (q : Q) :
  (q == 1)%Q →
  (quantile s q
   == inject_Z (nthZ (merge_sort Z.le s)
                     (Z.of_nat (length (merge_sort Z.le s)) - 1)))%Q.
Proof.
  intros Hq. unfold quantile.
  set (a := merge_sort Z.le s). set (n := Z.of_nat (length a)).
  assert (Hpos : (q * inject_Z (n - 1) == inject_Z (n - 1))%Q)
    by (rewrite Hq; ring).
  assert (Hlo : Qfloor (q * inject_Z (n - 1)) = (n - 1)%Z)
    by (by rewrite (Qfloor_comp _ _ Hpos), Qfloor_Z).
  rewrite Hlo, Hpos.
  replace (Z.min (n - 1 + 1) (n - 1)) with (n - 1)%Z by lia. ring.
Qed.

(** Every value of the series lies between the quantiles at 0 and at 1. *)
Lemma quantile_bounds (s : list Z) (q0 q1 : Q) (v : Z) :
  (q0 == 0)%Q → (q1 == 1)%Q → v ∈ s →
  (quantile s q0 <= inject_Z v)%Q ∧ (inject_Z v <= quantile s q1)%Q.
Proof.
  intros H0 H1 Hv. destruct (sorted_series s) as [Hsorted Hperm].
  assert (Hv' : v ∈ merge_sort Z.le s) by by rewrite Hperm.
  rewrite (quantile_at_0 s q0 H0), (quantile_at_1 s q1 H1).
  rewrite <-!Zle_Qle. split.
  - by apply sorted_first_le.
  - by apply sorted_last_ge.
Qed.

(** ** The edges are ascending *)

Lemma sorted_lookup_le (a : list Z) (i j : nat) (x y : Z) :
  StronglySorted Z.le a → i ≤ j → a !! i = Some x → a !! j = Some y →
  (x <= y)%Z.
Proof.
  intros Ha. revert i j.
  induction Ha as [|z a Ha IH Hz]; intros i j Hij Hi Hj; [done|].
  destruct i as [|i], j as [|j]; simpl in *; try lia.
  - injection Hi as ->. injection Hj as ->. lia.
  - injection Hi as ->. apply list_elem_of_lookup_2 in Hj.
    by eapply Forall_forall in Hz.
  - apply (IH i j); [lia|done..].
Qed.

Lemma sorted_nthZ_le (a : list Z) (i j : Z) :
  StronglySorted Z.le a → (0 <= i <= j)%Z → (j < Z.of_nat (length a))%Z →
  (nthZ a i <= nthZ a j)%Z.
Proof.
  intros Ha Hij Hj. unfold nthZ.
  destruct (lookup_lt_is_Some_2 a (Z.to_nat i)) as [x Hx]; [lia|].
  destruct (lookup_lt_is_Some_2 a (Z.to_nat j)) as [y Hy]; [lia|].
  rewrite Hx, Hy. simpl. apply (sorted_lookup_le a (Z.to_nat i) (Z.to_nat j)); auto.
  lia.
Qed.

(** The interpolation between two order statistics, and where it lies. *)
Lemma quantile_position (s : list Z) (q : Q) :
  s ≠ [] → (0 <= q)%Q → (q <= 1)%Q →
  let a := merge_sort Z.le s in
  let n := Z.of_nat (length a) in
  let lo := Qfloor (q * inject_Z (n - 1)) in
  let hi := Z.min (lo + 1) (n - 1) in
  (0 <= lo)%Z ∧ (lo <= hi)%Z ∧ (hi < n)%Z
  ∧ (inject_Z lo <= q * inject_Z (n - 1))%Q
  ∧ (q * inject_Z (n - 1) < inject_Z lo + 1)%Q
  ∧ (inject_Z (nthZ a lo) <= quantile s q)%Q
  ∧ (quantile s q <= inject_Z (nthZ a hi))%Q.
Proof.
  intros Hs Hq0 Hq1 a n lo hi.
  destruct (sorted_series s) as [Hsorted Hperm]. fold a in Hsorted, Hperm.
  assert (Hn : (1 <= n)%Z).
  { subst n a. rewrite Hperm. destruct s; [done|simpl; lia]. }
  assert (Hn1 : (0 <= inject_Z (n - 1))%Q) by (rewrite <-(Zle_Qle 0); lia).
  set (pos := (q * inject_Z (n - 1))%Q) in *.
  assert (Hpos0 : (0 <= pos)%Q) by (subst pos; nra).
  assert (Hposn : (pos <= inject_Z (n - 1))%Q) by (subst pos; nra).
  assert (Hlo0 : (0 <= lo)%Z).
  { subst lo. change 0%Z with (Qfloor 0). by apply Qfloor_resp_le. }
  assert (Hlon : (lo <= n - 1)%Z).
  { subst lo. rewrite <-(Qfloor_Z (n - 1)). by apply Qfloor_resp_le. }
  pose proof (Qfloor_le pos) as Hfl. pose proof (Qlt_floor pos) as Hfu.
  fold lo in Hfl, Hfu. rewrite inject_Z_plus in Hfu.
  change (inject_Z 1) with 1%Q in Hfu.
  assert (Hlohi : (nthZ a lo <= nthZ a hi)%Z)
    by (apply sorted_nthZ_le; [done|lia|lia]).
  rewrite Zle_Qle in Hlohi.
  split_and!; try done; try lia.
  - unfold quantile. fold a n pos lo hi. nra.
  - unfold quantile. fold a n pos lo hi. nra.
Qed.

Lemma quantile_mono (s : list Z) (q1 q2 : Q) :
  s ≠ [] → (0 <= q1)%Q → (q1 <= q2)%Q → (q2 <= 1)%Q →
  (quantile s q1 <= quantile s q2)%Q.
Proof.
  intros Hs H0 H12 H1.
  destruct (quantile_position s q1 Hs) as (Hlo1 & Hlh1 & Hhi1 & Hf1 & Hc1 & Hl1 & Hu1);
    [done|lra|].
  destruct (quantile_position s q2 Hs) as (Hlo2 & Hlh2 & Hhi2 & Hf2 & Hc2 & Hl2 & Hu2);
    [lra|done|].
  destruct (sorted_series s) as [Hsorted Hperm].
  set (a := merge_sort Z.le s) in *. set (n := Z.of_nat (length a)) in *.
  assert (Hn : (1 <= n)%Z).
  { subst n a. rewrite Hperm. destruct s; [done|simpl; lia]. }
  assert (Hn1 : (0 <= inject_Z (n - 1))%Q) by (rewrite <-(Zle_Qle 0); lia).
  set (lo1 := Qfloor (q1 * inject_Z (n - 1))) in *.
  set (lo2 := Qfloor (q2 * inject_Z (n - 1))) in *.
  assert (Hpos : (q1 * inject_Z (n - 1) <= q2 * inject_Z (n - 1))%Q)
    by (by apply Qmult_le_compat_r).
  assert (Hlo : (lo1 <= lo2)%Z) by (by apply Qfloor_resp_le).
  destruct (decide (lo1 = lo2)) as [Heq|Hne].
  - unfold quantile. fold a n lo1 lo2. rewrite <-Heq.
    assert (Hd : (nthZ a lo1 <= nthZ a (Z.min (lo1 + 1) (n - 1)))%Z)
      by (apply sorted_nthZ_le; [done|lia|lia]).
    rewrite Zle_Qle in Hd. nra.
  - assert (Hmid : (nthZ a (Z.min (lo1 + 1) (n - 1)) <= nthZ a lo2)%Z)
      by (apply sorted_nthZ_le; [done|lia|lia]).
    rewrite Zle_Qle in Hmid. lra.
Qed.

Lemma filter_StronglySorted {A} (R : relation A) (P : A → Prop)
    `{∀ x, Decision (P x)} (l : list A) :
  StronglySorted R l → StronglySorted R (filter P l).
Proof.
  induction 1 as [|x l Hl IH Hx]; [constructor|].
  rewrite filter_cons. case_decide; [|done].
  constructor; [done|]. apply Forall_forall. intros y [_ Hy]%list_elem_of_filter.
  by eapply Forall_forall in Hx.
Qed.

Lemma unique_StronglySorted {A} (R : relation A) (eqb : A → A → bool)
    (l : list A) :
  StronglySorted R l → StronglySorted R (unique eqb l).
Proof.
  induction 1 as [|x l Hl IH Hx]; [constructor|]. simpl.
  constructor; [by apply filter_StronglySorted|].
  apply Forall_forall. intros y [_ Hy%unique_incl]%list_elem_of_filter.
  by eapply Forall_forall in Hx.
Qed.

(** The edges [qcut] bins by are ascending, so that the insertion point of a
    value is the index of the first edge that is not below it. *)
Lemma qcut_edges_sorted (s : list Z) (q : list Q) :
  s ≠ [] → StronglySorted Qle q → Forall (λ p, 0 <= p ∧ p <= 1)%Q q →
  StronglySorted Qle (drop_duplicates (quantile s <$> q)).
Proof.
  intros Hs Hq Hq01.
  assert (Hedges : StronglySorted Qle (quantile s <$> q)).
  { induction Hq as [|p q Hq IH Hp]; [constructor|].
    apply Forall_cons in Hq01 as [[Hp0 Hp1] Hq01].
    rewrite fmap_cons. constructor; [by apply IH|].
    apply Forall_fmap, Forall_forall. intros p' Hp'. simpl.
    apply quantile_mono; [done..| |].
    - by eapply Forall_forall in Hp.
    - by eapply Forall_forall in Hq01 as [_ ?]. }
  unfold drop_duplicates. case_match; [|done].
  by apply unique_StronglySorted.
Qed.

Lemma searchsorted_left_spec (bins : list Q) (x : Q) :
  StronglySorted Qle bins →
  Forall (λ b, b < x)%Q (take (searchsorted_left bins x) bins)
  ∧ Forall (λ b, x <= b)%Q (drop (searchsorted_left bins x) bins).
Proof.
  induction 1 as [|b bins Hbins IH Hb]; [by split|]. simpl.
  destruct (Qle_bool x b) eqn:Hxb; simpl.
  - apply Qle_bool_iff in Hxb. split; [done|].
    constructor; [done|]. apply Forall_forall. intros b' Hb'.
    eapply Forall_forall in Hb; [|done]. by apply (Qle_trans _ b).
  - destruct IH as [IHt IHd]. split; [|done].
    constructor; [|done]. apply Qnot_le_lt. intros Hle.
    apply Qle_bool_iff in Hle. congruence.
Qed.

Lemma default_q_sorted :
  StronglySorted Qle default_q ∧ Forall (λ p, 0 <= p ∧ p <= 1)%Q default_q.
Proof. split; repeat constructor; by vm_compute. Qed.

Lemma linspace_3_sorted :
  StronglySorted Qle (linspace 3) ∧ Forall (λ p, 0 <= p ∧ p <= 1)%Q (linspace 3).
Proof. split; repeat constructor; by vm_compute. Qed.

(* ================================================================= *)
(** * Binning *)
(* ================================================================= *)

Lemma Qeq_bool_trans' (a b c : Q) :
  Qeq_bool a b = true → Qeq_bool b c = true → Qeq_bool a c = true.
Proof. apply Qeq_bool_trans. Qed.

Lemma drop_duplicates_head (bins : list Q) :
  head (drop_duplicates bins) = head bins.
Proof. unfold drop_duplicates. case_match; [apply head_unique|done]. Qed.

Lemma drop_duplicates_covers (bins : list Q) (b : Q) :
  b ∈ bins → ∃ b', b' ∈ drop_duplicates bins ∧ (b' == b)%Q.
Proof.
  intros Hb. unfold drop_duplicates. case_match.
  - destruct (unique_covers Qeq_bool bins b Qeq_bool_refl Qeq_bool_trans' Hb)
      as (y & Hy & Hyb).
    exists y. split; [done|by apply Qeq_bool_eq].
  - by exists b.
Qed.

Lemma drop_duplicates_length (bins : list Q) :
  length (drop_duplicates bins) ≤ length bins.
Proof.
  unfold drop_duplicates. case_match; [apply length_unique_le|done].
Qed.

(** Two equal edges make the list of distinct edges shorter. *)
Lemma unique_coincide (edges : list Q) :
  coincide edges → length (unique Qeq_bool edges) < length edges.
Proof.
  intros (i & j & a & b & Hij & Hi & Hj & Hab). revert i j Hij Hi Hj.
  induction edges as [|e edges IH]; intros i j Hij Hi Hj; [done|]. simpl.
  pose proof (length_unique_le Qeq_bool edges) as Hle.
  pose proof (length_filter (λ y, Qeq_bool e y = false)
                (unique Qeq_bool edges)) as Hf.
  destruct i as [|i].
  - destruct j as [|j]; [lia|]. simpl in Hi, Hj. injection Hi as ->.
    apply list_elem_of_lookup_2 in Hj.
    destruct (unique_covers Qeq_bool edges b Qeq_bool_refl Qeq_bool_trans' Hj)
      as (y & Hy & Hyb).
    enough (length (filter (λ y, Qeq_bool a y = false) (unique Qeq_bool edges))
            < length (unique Qeq_bool edges)) by lia.
    apply (length_filter_lt _ _ y Hy).
    assert (Qeq_bool a y = true); [|congruence].
    apply Qeq_bool_iff. apply Qeq_bool_iff in Hyb. by rewrite Hab, Hyb.
  - destruct j as [|j]; [lia|]. simpl in Hi, Hj.
    specialize (IH i j ltac:(lia) Hi Hj). lia.
Qed.

Lemma drop_duplicates_coincide (edges : list Q) :
  coincide edges → length edges ≠ 2 →
  length (drop_duplicates edges) < length edges.
Proof.
  intros Hc%unique_coincide Hlen. unfold drop_duplicates.
  apply Nat.ltb_lt in Hc as Hc'. rewrite Hc'.
  by apply Nat.eqb_neq in Hlen as ->.
Qed.

Lemma searchsorted_left_lt (bins : list Q) (x b : Q) :
  b ∈ bins → (x <= b)%Q → searchsorted_left bins x < length bins.
Proof.
  induction bins as [|a bins IH]; intros Hb Hle; [by apply elem_of_nil in Hb|].
  simpl. destruct (Qle_bool x a) eqn:Hxa; [lia|].
  apply elem_of_cons in Hb as [->|Hb].
  - apply Qle_bool_iff in Hle. congruence.
  - specialize (IH Hb Hle). lia.
Qed.

Lemma searchsorted_left_0 (bins : list Q) (x b0 : Q) :
  head bins = Some b0 → searchsorted_left bins x = 0 → (x <= b0)%Q.
Proof.
  destruct bins as [|a bins]; simpl; [done|]. intros [= ->].
  destruct (Qle_bool x b0) eqn:Hx; [|done]. intros _. by apply Qle_bool_iff.
Qed.

(** The only exception of the binning is [ValueError], and it is raised
    exactly when the labels do not fit the edges that are left. *)
Lemma bins_to_cuts_raise x bins labels :
  length labels ≠ length (drop_duplicates bins) - 1 →
  bins_to_cuts x bins labels = Raise ValueError.
Proof.
  intros Hlen. unfold bins_to_cuts.
  by apply Nat.eqb_neq in Hlen as ->.
Qed.

Lemma bins_to_cuts_raise_inv x bins labels e :
  bins_to_cuts x bins labels = Raise e → e = ValueError.
Proof. unfold bins_to_cuts. case_match; congruence. Qed.

(** When the first edge is below every value and some edge is above every
    value, a successful binning labels every value. *)
Lemma bins_to_cuts_notna x bins labels r b0 bn :
  bins_to_cuts x bins labels = Return r →
  labels ≠ [] →
  head bins = Some b0 → (∀ v, v ∈ x → (b0 <= inject_Z v)%Q) →
  bn ∈ bins → (∀ v, v ∈ x → (inject_Z v <= bn)%Q) →
  length r = length x ∧ Forall is_Some r.
Proof.
  intros Hr Hlabels Hb0 Hlow Hbn Hhigh. unfold bins_to_cuts in Hr.
  destruct (length labels =? length (drop_duplicates bins) - 1) eqn:Hlen;
    [|done].
  apply Nat.eqb_eq in Hlen. simpl in Hr. injection Hr as <-.
  rewrite !length_fmap. split; [done|].
  rewrite drop_duplicates_head, Hb0. simpl.
  destruct (drop_duplicates_covers bins bn Hbn) as (bn' & Hbn' & Hbn'eq).
  assert (Hlen2 : 2 ≤ length (drop_duplicates bins))
    by (destruct labels; [done|simpl in Hlen; lia]).
  rewrite <-list_fmap_compose. apply Forall_fmap, Forall_forall.
  intros v Hv. simpl.
  destruct (Qeq_bool (inject_Z v) b0) eqn:Hvb0.
  - replace (1 =? length (drop_duplicates bins)) with false
      by (symmetry; apply Nat.eqb_neq; lia).
    simpl. destruct labels; [done|]. by eexists.
  - set (i := searchsorted_left (drop_duplicates bins) (inject_Z v)).
    assert (Hi : i < length (drop_duplicates bins)).
    { apply (searchsorted_left_lt _ _ bn'); [done|].
      rewrite Hbn'eq. by apply Hhigh. }
    assert (Hi0 : i ≠ 0).
    { intros Hi0. apply Qeq_bool_neq in Hvb0. apply Hvb0.
      apply Qle_antisym; [|by apply Hlow].
      apply (searchsorted_left_0 (drop_duplicates bins)); [|done].
      by rewrite drop_duplicates_head. }
    replace (i =? length (drop_duplicates bins)) with false
      by (symmetry; apply Nat.eqb_neq; lia).
    replace (i =? 0) with false by (symmetry; by apply Nat.eqb_neq).
    simpl. apply lookup_lt_is_Some. lia.
Qed.

(** [qcut] with quantiles that start at 0 and end at 1 labels every value
    whenever it returns. *)
Lemma qcut_notna s q0 qs q1 labels r :
  (q0 == 0)%Q → (q1 == 1)%Q → labels ≠ [] →
  qcut s (q0 :: qs ++ [q1]) labels = Return r →
  length r = length s ∧ Forall is_Some r.
Proof.
  intros H0 H1 Hlabels Hr. unfold qcut in Hr.
  eapply (bins_to_cuts_notna _ _ _ _ (quantile s q0) (quantile s q1)); eauto.
  - intros v Hv. by apply (quantile_bounds s q0 q1).
  - rewrite fmap_cons, fmap_app. right. apply elem_of_app. right. left.
  - intros v Hv. by apply (quantile_bounds s q0 q1).
Qed.

Lemma qcut_raise_inv s q labels e :
  qcut s q labels = Raise e → e = ValueError.
Proof. apply bins_to_cuts_raise_inv. Qed.

(* ================================================================= *)
(** * Tiering *)
(* ================================================================= *)

Lemma median_split_notna s :
  length (median_split s) = length s ∧ Forall is_Some (median_split s).
Proof.
  unfold median_split. rewrite length_fmap. split; [done|].
  apply Forall_fmap, Forall_forall. intros x _. by eexists.
Qed.

Lemma tertile_split_notna s :
  length (tertile_split s) = length s ∧ Forall is_Some (tertile_split s).
Proof.
  unfold tertile_split. rewrite length_fmap. split; [done|].
  apply Forall_fmap, Forall_forall. intros x _. by eexists.
Qed.

(** The fallback ladder, rung by rung. *)
Lemma qcut_fallback_ladder s :
  (nunique s = 2 → qcut_fallback s = Return (median_split s))
  ∧ (nunique s = 3 → qcut_fallback s = Return (tertile_split s))
  ∧ (4 ≤ nunique s →
     qcut_fallback s
     = match qcut s (linspace 3) [Baja; Media; Alta] with
       | Return r => Return r
       | Raise _ => Return (median_split s)
       end).
Proof.
  unfold qcut_fallback. split_and!.
  - by intros ->.
  - by intros ->.
  - intros Hn.
    replace (nunique s =? 2) with false by (symmetry; apply Nat.eqb_neq; lia).
    replace (nunique s =? 3) with false by (symmetry; apply Nat.eqb_neq; lia).
    replace (nunique s `min` 3) with 3 by lia.
    replace ((nunique s - 1) `min` 3) with 3 by lia.
    change (take 3 [Baja; Media; Alta]) with [Baja; Media; Alta].
    destruct (qcut s (linspace 3) [Baja; Media; Alta]) as [r|e] eqn:Hq; [done|].
    by apply qcut_raise_inv in Hq as ->.
Qed.

Lemma qcut_fallback_total s :
  2 ≤ nunique s →
  ∃ r, qcut_fallback s = Return r ∧ length r = length s ∧ Forall is_Some r.
Proof.
  intros Hn. destruct (qcut_fallback_ladder s) as (H2 & H3 & H4).
  destruct (decide (nunique s = 2)) as [E2|N2].
  { rewrite (H2 E2). eexists. split; [done|apply median_split_notna]. }
  destruct (decide (nunique s = 3)) as [E3|N3].
  { rewrite (H3 E3). eexists. split; [done|apply tertile_split_notna]. }
  rewrite H4 by lia.
  destruct (qcut s (linspace 3) [Baja; Media; Alta]) as [r|e] eqn:Hq.
  - exists r. split; [done|].
    apply (qcut_notna s (0 # 3) [1 # 3; 2 # 3]%Q (3 # 3) [Baja; Media; Alta]);
      [by vm_compute|by vm_compute|done|exact Hq].
  - eexists. split; [done|apply median_split_notna].
Qed.

Lemma quantile_labels_constant_series s :
  nunique s ≤ 1 → quantile_labels s = Return (replicate (length s) (Some Sin_datos)).
Proof.
  intros Hn. unfold quantile_labels, quantile_labels_with.
  by apply Nat.leb_le in Hn as ->.
Qed.

Lemma quantile_labels_varied s :
  2 ≤ nunique s →
  quantile_labels s
  = match qcut s default_q default_labels with
    | Return r => Return r
    | Raise _ => qcut_fallback s
    end.
Proof.
  intros Hn. unfold quantile_labels, quantile_labels_with.
  replace (nunique s <=? 1) with false by (symmetry; apply Nat.leb_gt; lia).
  change (take (length default_q - 1) default_labels) with default_labels.
  destruct (qcut s default_q default_labels) as [r|e] eqn:Hq; [done|].
  by apply qcut_raise_inv in Hq as ->.
Qed.

Lemma quantile_labels_total s :
  ∃ r, quantile_labels s = Return r ∧ length r = length s ∧ Forall is_Some r.
Proof.
  destruct (decide (nunique s ≤ 1)) as [Hn|Hn].
  - rewrite quantile_labels_constant_series by done. eexists. split; [done|].
    rewrite length_replicate. split; [done|].
    apply Forall_forall. intros c ->%elem_of_replicate_inv. by eexists.
  - rewrite quantile_labels_varied by lia.
    destruct (qcut s default_q default_labels) as [r|e] eqn:Hq.
    + exists r. split; [done|].
      apply (qcut_notna s 0 [1 # 4; 1 # 2; 3 # 4]%Q 1 default_labels);
        [reflexivity|reflexivity|done|exact Hq].
    + apply qcut_fallback_total. lia.
Qed.

(** C1 (as stated, fails). The counts 0, 0, 0, 5 have two distinct values
    and the quartile edges 0, 0, 0, 5/4, 5. Dropping the repeated edges
    leaves two bins for four labels, so [qcut] raises [ValueError]; the
    handler answers with the median split, which is not the labelling of the
    merged quartile split. *)
Lemma repeated_quartiles_enter_fallback :
  2 ≤ nunique [0; 0; 0; 5]%Z
  ∧ coincide (quantile [0; 0; 0; 5]%Z <$> default_q)
  ∧ qcut [0; 0; 0; 5]%Z default_q default_labels = Raise ValueError
  ∧ quantile_labels [0; 0; 0; 5]%Z
    = Return [Some Baja; Some Baja; Some Baja; Some Alta]
  ∧ merged_quartile_split [0; 0; 0; 5]%Z
    = Return [Some Muy_baja; Some Muy_baja; Some Muy_baja; Some Baja]
  ∧ quantile_labels [0; 0; 0; 5]%Z ≠ merged_quartile_split [0; 0; 0; 5]%Z.
Proof.
  split_and!.
  - vm_compute. lia.
  - exists 0, 1, (quantile [0; 0; 0; 5]%Z 0), (quantile [0; 0; 0; 5]%Z (1 # 4)).
    split_and!; [lia|done|done|by vm_compute].
  - by vm_compute.
  - by vm_compute.
  - by vm_compute.
  - by vm_compute.
Qed.

(** C1 (amended). When the series has at least two distinct values and two
    quartile edges coincide, [qcut] drops the repeated edges, is left with
    fewer bins than its four labels and raises [ValueError]; the handler of
    [quantile_labels] then returns the labelling of the fallback ladder: the
    median split for two distinct values, the 33rd/67th percentile split for
    three, and otherwise the three-way quantile split or, when that raises
    as well, the median split. No exception leaves [quantile_labels], and
    every row gets a label. *)
Theorem repeated_quartiles_fall_back (s : list Z) :
  2 ≤ nunique s →
  coincide (quantile s <$> default_q) →
  qcut s default_q default_labels = Raise ValueError
  ∧ quantile_labels s = qcut_fallback s
  ∧ (nunique s = 2 → quantile_labels s = Return (median_split s))
  ∧ (nunique s = 3 → quantile_labels s = Return (tertile_split s))
  ∧ (4 ≤ nunique s →
     quantile_labels s
     = match qcut s (linspace 3) [Baja; Media; Alta] with
       | Return r => Return r
       | Raise _ => Return (median_split s)
       end)
  ∧ ∃ r, quantile_labels s = Return r
         ∧ length r = length s ∧ Forall is_Some r.
Proof.
  intros Hn Hc.
  assert (Hq : qcut s default_q default_labels = Raise ValueError).
  { apply bins_to_cuts_raise.
    apply drop_duplicates_coincide in Hc; [|by rewrite length_fmap].
    rewrite length_fmap in Hc. simpl in *. lia. }
  assert (Hl : quantile_labels s = qcut_fallback s)
    by (by rewrite quantile_labels_varied, Hq).
  destruct (qcut_fallback_ladder s) as (H2 & H3 & H4).
  rewrite Hl. split_and!; try done.
  by apply qcut_fallback_total.
Qed.

Lemma repeated_quartiles_fall_back_witness :
  qcut [0; 0; 1; 2]%Z default_q default_labels = Raise ValueError
  ∧ quantile_labels [0; 0; 1; 2]%Z = qcut_fallback [0; 0; 1; 2]%Z
  ∧ (nunique [0; 0; 1; 2]%Z = 2 →
     quantile_labels [0; 0; 1; 2]%Z = Return (median_split [0; 0; 1; 2]%Z))
  ∧ (nunique [0; 0; 1; 2]%Z = 3 →
     quantile_labels [0; 0; 1; 2]%Z = Return (tertile_split [0; 0; 1; 2]%Z))
  ∧ (4 ≤ nunique [0; 0; 1; 2]%Z →
     quantile_labels [0; 0; 1; 2]%Z
     = match qcut [0; 0; 1; 2]%Z (linspace 3) [Baja; Media; Alta] with
       | Return r => Return r
       | Raise _ => Return (median_split [0; 0; 1; 2]%Z)
       end)
  ∧ ∃ r, quantile_labels [0; 0; 1; 2]%Z = Return r
         ∧ length r = length [0; 0; 1; 2]%Z ∧ Forall is_Some r.
Proof.
  apply (repeated_quartiles_fall_back [0; 0; 1; 2]%Z).
  - vm_compute. lia.
  - exists 0, 1, (quantile [0; 0; 1; 2]%Z 0), (quantile [0; 0; 1; 2]%Z (1 # 4)).
    split_and!; [lia|reflexivity|reflexivity|vm_compute; reflexivity].
Defined.

(* ================================================================= *)
(** * Aggregation and the opportunity table *)
(* ================================================================= *)

Lemma sorted_unique_spec (l : list pystr) :
  NoDup (merge_sort pystr_le (unique pystr_eqb l))
  ∧ (∀ k, k ∈ merge_sort pystr_le (unique pystr_eqb l) ↔ k ∈ l)
  ∧ length (merge_sort pystr_le (unique pystr_eqb l))
    = length (unique pystr_eqb l).
Proof.
  pose proof (merge_sort_Permutation pystr_le (unique pystr_eqb l)) as Hp.
  split_and!.
  - rewrite Hp. apply NoDup_unique, pystr_eqb_eq.
  - intros k. rewrite Hp. apply elem_of_unique, pystr_eqb_eq.
  - by rewrite Hp.
Qed.

Lemma fmap_fst_pair {A B} (g : A → B) (l : list A) :
  ((λ k, (k, g k)) <$> l).*1 = l.
Proof. induction l as [|a l IH]; [done|]. rewrite !fmap_cons. by f_equal. Qed.

Lemma filter_key_fmap (c : pystr → Z) (keys : list pystr) (k : pystr) :
  NoDup keys →
  filter (λ kv : pystr * Z, kv.1 = k) ((λ k, (k, c k)) <$> keys)
  = if decide (k ∈ keys) then [(k, c k)] else [].
Proof.
  induction keys as [|k0 keys IH]; [done|].
  intros [Hk0 Hkeys]%NoDup_cons. rewrite fmap_cons, filter_cons. simpl.
  rewrite (IH Hkeys). destruct (decide (k0 = k)) as [->|Hne].
  - rewrite (decide_False (P := k ∈ keys)) by done.
    by rewrite (decide_True (P := k ∈ k :: keys)) by left.
  - destruct (decide (k ∈ keys)) as [Hin|Hout].
    + by rewrite (decide_True (P := k ∈ k0 :: keys)) by (by right).
    + rewrite (decide_False (P := k ∈ k0 :: keys)); [done|].
      by intros [?|?]%elem_of_cons.
Qed.

Lemma merge_left_lookup (c : pystr → Z) (left keys : list pystr) :
  NoDup keys →
  merge_left left ((λ k, (k, c k)) <$> keys)
  = (λ k, (k, if decide (k ∈ keys) then Some (c k) else None)) <$> left.
Proof.
  intros Hkeys. unfold merge_left.
  induction left as [|k left IH]; [done|].
  rewrite bind_cons, fmap_cons, IH, (filter_key_fmap c keys k Hkeys).
  by destruct (decide (k ∈ keys)).
Qed.

Lemma group_size_absent (col : record → option pystr) (df : list record) k :
  (∀ r, r ∈ df → col r ≠ Some k) → group_size col df k = 0%Z.
Proof.
  intros Hk. unfold group_size.
  destruct (filter (λ r, col r = Some k) df) as [|r l] eqn:Hf; [done|].
  assert (Hr : r ∈ filter (λ r, col r = Some k) df) by (rewrite Hf; left).
  apply list_elem_of_filter in Hr as [Hr Hin]. by destruct (Hk r Hin).
Qed.

Lemma group_size_present (col : record → option pystr) (df : list record) r k :
  r ∈ df → col r = Some k → (1 <= group_size col df k)%Z.
Proof.
  intros Hin Hr. unfold group_size.
  assert (Hf : r ∈ filter (λ r, col r = Some k) df)
    by by apply list_elem_of_filter.
  destruct (filter _ df); [by apply elem_of_nil in Hf|simpl; lia].
Qed.

Lemma groupby_size_elem (col : record → option pystr) (df : list record) k n :
  (k, n) ∈ groupby_size col df
  ↔ (∃ r, r ∈ df ∧ col r = Some k) ∧ n = group_size col df k.
Proof.
  unfold groupby_size. rewrite list_elem_of_fmap.
  destruct (sorted_unique_spec (omap col df)) as (_ & Hin & _).
  split.
  - intros (k' & [= -> ->] & Hk'). split; [|done].
    by apply Hin, list_elem_of_omap in Hk'.
  - intros [Hr ->]. exists k. split; [done|].
    by apply Hin, list_elem_of_omap.
Qed.

Lemma groupby_size_keys (col : record → option pystr) (df : list record) :
  (groupby_size col df).*1 = merge_sort pystr_le (unique pystr_eqb (omap col df)).
Proof.
  unfold groupby_size. apply fmap_fst_pair.
Qed.

(** The left join against a group-by, and the zero fill: every area gets the
    size of its group. *)
Lemma merge_left_groupby (col : record → option pystr)
    (left : list pystr) (df : list record) :
  (merge_left left (groupby_size col df)).*1 = left
  ∧ (λ kn : pystr * option Z, default 0%Z kn.2)
      <$> merge_left left (groupby_size col df)
    = group_size col df <$> left.
Proof.
  destruct (sorted_unique_spec (omap col df)) as (Hnd & Hin & _).
  unfold groupby_size. rewrite (merge_left_lookup _ _ _ Hnd). split.
  - apply fmap_fst_pair.
  - rewrite <-list_fmap_compose. apply list_fmap_ext. intros i k _. simpl.
    destruct (decide _) as [|Hout]; [done|]. simpl. symmetry.
    apply group_size_absent. intros r Hr Hk. apply Hout, Hin.
    apply list_elem_of_omap. eauto.
Qed.

Lemma zip_with_rows (comp : list (pystr * option Z)) (cats : list (option tier)) :
  length cats = length comp →
  area <$> zip_with (λ kn c, Opportunity kn.1 (default 0%Z kn.2) c) comp cats
  = comp.*1
  ∧ n_locales
      <$> zip_with (λ kn c, Opportunity kn.1 (default 0%Z kn.2) c) comp cats
    = (λ kn : pystr * option Z, default 0%Z kn.2) <$> comp
  ∧ categoria
      <$> zip_with (λ kn c, Opportunity kn.1 (default 0%Z kn.2) c) comp cats
    = cats.
Proof.
  revert cats. induction comp as [|kn comp IH]; intros [|c cats] Hlen;
    try done.
  injection Hlen as Hlen. destruct (IH cats Hlen) as (Ha & Hn & Hc).
  split_and!; simpl; f_equal; assumption.
Qed.

Lemma NoDup_fmap_eq {A B} (f : A → B) (l : list A) x y :
  NoDup (f <$> l) → x ∈ l → y ∈ l → f x = f y → x = y.
Proof.
  induction l as [|a l IH]; [by intros _ ?%elem_of_nil|].
  rewrite fmap_cons. intros [Ha Hl]%NoDup_cons.
  intros [->|Hx]%elem_of_cons [->|Hy]%elem_of_cons Hf; [done| | |by apply IH].
  - destruct Ha. rewrite Hf. by apply list_elem_of_fmap_2.
  - destruct Ha. rewrite <-Hf. by apply list_elem_of_fmap_2.
Qed.

Section Table.
Context (U : unicode_data).

Implicit Types (df : list record) (lv : level).

(** The table before it is sorted: the areas of the data, ascending, each
    with the size of its group among the records of the selected activity
    and with a tier. *)
Lemma tabla_op_unfold df actividad_sel lv :
  ∃ rows,
    tabla_op U df actividad_sel lv = Return (merge_sort opportunity_le rows)
    ∧ area <$> rows
      = merge_sort pystr_le (unique pystr_eqb (omap (level_col lv) df))
    ∧ n_locales <$> rows
      = group_size (level_col lv) (df_plot U actividad_sel df) <$> (area <$> rows)
    ∧ Forall (λ row, is_Some (categoria row)) rows.
Proof.
  unfold tabla_op, compute_opportunities.
  set (all_areas := merge_sort pystr_le _).
  assert (Hex : match lv with
                | Barrio => grupo_barrio U actividad_sel df
                | Distrito => grupo_distrito U actividad_sel df
                end = groupby_size (level_col lv) (df_plot U actividad_sel df))
    by by destruct lv.
  rewrite Hex.
  set (comp := merge_left all_areas _).
  destruct (merge_left_groupby (level_col lv) all_areas
              (df_plot U actividad_sel df)) as [Hkeys Hcounts].
  fold comp in Hkeys, Hcounts.
  set (counts := (λ kn : pystr * option Z, default 0%Z kn.2) <$> comp) in *.
  assert (Hcats : ∃ cats,
            (if (0 <? length comp) && (0 <? series_max counts)%Z
             then quantile_labels counts
             else Return (replicate (length comp) (Some Sin_datos)))
            = Return cats
            ∧ length cats = length comp ∧ Forall is_Some cats).
  { destruct ((0 <? length comp) && (0 <? series_max counts)%Z).
    - destruct (quantile_labels_total counts) as (cats & -> & Hlen & Hsome).
      exists cats. split_and!; [done| |done].
      rewrite Hlen. unfold counts. by rewrite length_fmap.
    - eexists. split_and!; [done|by rewrite length_replicate|].
      apply Forall_forall. intros c ->%elem_of_replicate_inv. by eexists. }
  destruct Hcats as (cats & -> & Hlen & Hsome).
  destruct (zip_with_rows comp cats Hlen) as (Ha & Hn & Hc).
  eexists. split_and!; [done|by rewrite Ha|..].
  - by rewrite Hn, Ha, Hkeys.
  - apply (Forall_fmap categoria is_Some). by rewrite Hc.
Qed.

Lemma tabla_op_spec df actividad_sel lv :
  ∃ rows,
    tabla_op U df actividad_sel lv = Return rows
    ∧ StronglySorted opportunity_le rows
    ∧ NoDup (area <$> rows)
    ∧ (∀ k, k ∈ area <$> rows ↔ ∃ r, r ∈ df ∧ level_col lv r = Some k)
    ∧ length rows = length (unique pystr_eqb (omap (level_col lv) df))
    ∧ Forall (λ row, n_locales row
                     = group_size (level_col lv) (df_plot U actividad_sel df)
                                  (area row)) rows
    ∧ Forall (λ row, is_Some (categoria row)) rows.
Proof.
  destruct (tabla_op_unfold df actividad_sel lv)
    as (rows & -> & Hareas & Hcounts & Hcats).
  destruct (sorted_unique_spec (omap (level_col lv) df)) as (Hnd & Hin & Hlen).
  pose proof (merge_sort_Permutation opportunity_le rows) as Hperm.
  eexists. split_and!; [done|..].
  - apply StronglySorted_merge_sort; apply _.
  - by rewrite Hperm, Hareas.
  - intros k. rewrite Hperm, Hareas, Hin. apply list_elem_of_omap.
  - rewrite Hperm, <-Hlen, <-Hareas. by rewrite length_fmap.
  - rewrite Hperm. apply Forall_forall. intros row Hrow.
    apply list_elem_of_lookup in Hrow as [i Hi].
    apply (f_equal (.!! i)) in Hcounts.
    by rewrite !list_lookup_fmap, Hi in Hcounts; injection Hcounts.
  - by rewrite Hperm.
Qed.

End Table.

(** C2. Tiering is total: for every count series, [quantile_labels] returns
    (no exception leaves it) one label per row, none of them null, and the
    "Sin datos" label throughout when the series has at most one distinct
    value; and the opportunity table, which labels its rows either with
    [quantile_labels] or with "Sin datos", is always produced, with a label
    in every row. *)
Theorem tiering_totality :
  (∀ s : list Z,
     ∃ r, quantile_labels s = Return r
          ∧ length r = length s
          ∧ Forall is_Some r
          ∧ (nunique s ≤ 1 → r = replicate (length s) (Some Sin_datos)))
  ∧ (∀ (U : unicode_data) (df : list record) (actividad_sel : pystr)
       (lv : level),
       ∃ rows, tabla_op U df actividad_sel lv = Return rows
               ∧ Forall (λ row, is_Some (categoria row)) rows).
Proof.
  split.
  - intros s. destruct (quantile_labels_total s) as (r & Hr & Hlen & Hsome).
    exists r. split_and!; try done.
    intros Hn. rewrite quantile_labels_constant_series in Hr by done.
    by injection Hr.
  - intros U df sel lv.
    destruct (tabla_op_spec U df sel lv) as (rows & Hrows & H); exists rows.
    split; [done|]. apply H.
Qed.

(** C3. Zero-fill completeness: for every data frame, selected activity and
    level, the opportunity table is produced and has exactly one row per
    distinct area name of the whole data frame at that level; the count of a
    row is the number of records of the selected activity in its area, which
    is zero for an area that is absent from the per-area counts of the
    activity. *)
Theorem zero_fill_completeness (U : unicode_data) (df : list record)
    (actividad_sel : pystr) (lv : level) :
  ∃ rows,
    tabla_op U df actividad_sel lv = Return rows
    ∧ NoDup (area <$> rows)
    ∧ (∀ k, k ∈ area <$> rows ↔ ∃ r, r ∈ df ∧ level_col lv r = Some k)
    ∧ length rows = length (unique pystr_eqb (omap (level_col lv) df))
    ∧ (∀ row, row ∈ rows →
         n_locales row
         = group_size (level_col lv) (df_plot U actividad_sel df) (area row))
    ∧ (∀ row, row ∈ rows →
         area row
           ∉ (groupby_size (level_col lv) (df_plot U actividad_sel df)).*1 →
         n_locales row = 0%Z).
Proof.
  destruct (tabla_op_spec U df actividad_sel lv)
    as (rows & Hrows & _ & Hnd & Hin & Hlen & Hcount & _).
  exists rows. split_and!; try done.
  - intros row Hrow. by eapply Forall_forall in Hcount.
  - intros row Hrow Habsent.
    rewrite (proj1 (Forall_forall _ _) Hcount row Hrow).
    apply group_size_absent. intros r Hr Hk. apply Habsent.
    rewrite groupby_size_keys.
    apply (sorted_unique_spec (omap (level_col lv) (df_plot U actividad_sel df))).
    apply list_elem_of_omap. eauto.
Qed.

(** C4. Ranking determinism: the rows of the opportunity table are sorted by
    count ascending, ties broken by area name ascending, and this fixes their
    order completely; with counts A: 0, B: 0, C: 3 the order is A, B, C. *)
Theorem ranking_determinism :
  (∀ (U : unicode_data) (df : list record) (actividad_sel : pystr)
     (lv : level),
     ∃ rows, tabla_op U df actividad_sel lv = Return rows
             ∧ StronglySorted opportunity_le rows
             ∧ ∀ rows', rows' ≡ₚ rows → Sorted opportunity_le rows' →
                        rows' = rows)
  ∧ ∃ rows, tabla_op Latin1.data Sample.ranking_df (lit "PAN") Barrio
            = Return rows
            ∧ (λ row, (area row, n_locales row)) <$> rows
              = [(lit "A", 0%Z); (lit "B", 0%Z); (lit "C", 3%Z)].
Proof.
  split.
  - intros U df sel lv.
    destruct (tabla_op_spec U df sel lv)
      as (rows & Hrows & Hsorted & Hnd & _).
    exists rows. split_and!; try done.
    intros rows' Hperm Hsorted'. symmetry.
    apply (StronglySorted_unique_strong opportunity_le); try done.
    + intros x1 x2 Hx1 Hx2 [Hlt|[Hn Ha]] [Hlt'|[Hn' Ha']]; try lia.
      rewrite Hperm in Hx2.
      apply (NoDup_fmap_eq area rows x1 x2 Hnd Hx1 Hx2).
      by apply (anti_symm pystr_le).
    + by apply Sorted_StronglySorted; [apply _|].
  - eexists. split; by vm_compute.
Qed.

(** The scenario of the specification: five bakeries in CENTRO and none in
    SALAMANCA give SALAMANCA with 0 before CENTRO with 5. *)
Example tabla_op_panaderias :
  ∃ rows, tabla_op Latin1.data Sample.panaderias (lit "PANADERIA") Barrio
          = Return rows
          ∧ (λ row, (area row, n_locales row)) <$> rows
            = [(lit "SALAMANCA", 0%Z); (lit "CENTRO", 5%Z)].
Proof. eexists. split; by vm_compute. Qed.

(* ================================================================= *)
(** * Aggregation does not read the coordinates *)
(* ================================================================= *)

Section Aggregation.
Context (U : unicode_data).

Implicit Types (df : list record) (r : record).

Lemma area_fields_cons_inv r1 r2 df1 df2 :
  area_fields <$> r1 :: df1 = area_fields <$> r2 :: df2 →
  area_fields r1 = area_fields r2 ∧ area_fields <$> df1 = area_fields <$> df2.
Proof. rewrite !fmap_cons. intros Heq. split; congruence. Qed.

Lemma df_plot_area_fields actividad_sel df1 df2 :
  area_fields <$> df1 = area_fields <$> df2 →
  area_fields <$> df_plot U actividad_sel df1
  = area_fields <$> df_plot U actividad_sel df2.
Proof.
  revert df2. induction df1 as [|r1 df1 IH]; intros [|r2 df2] Heq; try done.
  apply area_fields_cons_inv in Heq as [Hr Heq].
  unfold df_plot in *. rewrite !filter_cons.
  assert (desc_epigrafe r1 = desc_epigrafe r2) as ->
    by (unfold area_fields in Hr; congruence).
  case_decide; [rewrite !fmap_cons, Hr; f_equal|]; by apply IH.
Qed.

Lemma groupby_size_area_fields (col : record → option pystr) df1 df2 :
  (∀ r r', area_fields r = area_fields r' → col r = col r') →
  area_fields <$> df1 = area_fields <$> df2 →
  groupby_size col df1 = groupby_size col df2.
Proof.
  intros Hcol Heq.
  assert (Hkeys : omap col df1 = omap col df2).
  { revert df2 Heq. induction df1 as [|r1 df1 IH]; intros [|r2 df2] Heq;
      try done.
    apply area_fields_cons_inv in Heq as [Hr Heq]. simpl.
    rewrite (Hcol r1 r2 Hr). destruct (col r2); [f_equal|]; by apply IH. }
  assert (Hsize : ∀ k, group_size col df1 k = group_size col df2 k).
  { intros k. unfold group_size. f_equal. clear Hkeys.
    revert df2 Heq.
    induction df1 as [|r1 df1 IH]; intros [|r2 df2] Heq; try done.
    apply area_fields_cons_inv in Heq as [Hr Heq].
    rewrite !filter_cons, (Hcol r1 r2 Hr).
    case_decide; [simpl; f_equal|]; by apply IH. }
  unfold groupby_size. rewrite Hkeys. apply list_fmap_ext. intros i k _.
  by rewrite Hsize.
Qed.

Lemma fill_row_area_fields index col r :
  area_fields (fill_row U index col r) = area_fields r.
Proof.
  by destruct (fill_row_cases U index col r) as [->|(la & lo & _ & _ & ->)].
Qed.

Lemma complete_coordinates_area_fields
    (barrios_index distritos_index : option (gmap pystr feature)) df :
  area_fields <$> complete_coordinates U barrios_index distritos_index df
  = area_fields <$> df.
Proof.
  rewrite complete_coordinates_rowwise, <-list_fmap_compose.
  apply list_fmap_ext. intros i r _. unfold complete_row. simpl.
  by rewrite !fill_row_area_fields.
Qed.

(** C9. The per-area counts of a selected activity depend on the activity
    and area columns only: two data frames that differ at most in their
    latitude and longitude columns give the same counts, so coordinate
    completion does not change them; and a record of the selected activity
    adds one to the count of the area it names, whatever its coordinates
    are, undefined ones included. *)
Theorem aggregation_ignores_coordinates (actividad_sel : pystr) :
  (∀ df1 df2,
     area_fields <$> df1 = area_fields <$> df2 →
     grupo_barrio U actividad_sel df1 = grupo_barrio U actividad_sel df2
     ∧ grupo_distrito U actividad_sel df1 = grupo_distrito U actividad_sel df2)
  ∧ (∀ (barrios_index distritos_index : option (gmap pystr feature)) df,
       grupo_barrio U actividad_sel
         (complete_coordinates U barrios_index distritos_index df)
       = grupo_barrio U actividad_sel df
       ∧ grupo_distrito U actividad_sel
           (complete_coordinates U barrios_index distritos_index df)
         = grupo_distrito U actividad_sel df)
  ∧ (∀ (lv : level) df1 r df2 k,
       desc_epigrafe r = Some (normalize_str U (Some actividad_sel)) →
       level_col lv r = Some k →
       (k, (1 + group_size (level_col lv)
                  (df_plot U actividad_sel (df1 ++ df2)) k)%Z)
         ∈ groupby_size (level_col lv)
             (df_plot U actividad_sel (df1 ++ r :: df2))).
Proof.
  assert (Hagree : ∀ df1 df2,
            area_fields <$> df1 = area_fields <$> df2 →
            grupo_barrio U actividad_sel df1 = grupo_barrio U actividad_sel df2
            ∧ grupo_distrito U actividad_sel df1
              = grupo_distrito U actividad_sel df2).
  { intros df1 df2 Heq%(df_plot_area_fields actividad_sel).
    split; apply groupby_size_area_fields; try done;
      intros r r'; unfold area_fields; congruence. }
  split_and!; [done| |].
  - intros b d df. apply Hagree, complete_coordinates_area_fields.
  - intros lv df1 r df2 k Hact Hk. apply groupby_size_elem. split.
    + exists r. split; [|done]. unfold df_plot.
      apply list_elem_of_filter. split; [done|].
      apply elem_of_app. right. left.
    + unfold group_size, df_plot.
      rewrite !filter_app, !filter_cons, !length_app.
      rewrite (decide_True (P := desc_epigrafe r = _)) by done.
      rewrite filter_cons, decide_True by done. simpl. lia.
Qed.

End Aggregation.

Lemma aggregation_ignores_coordinates_witness :
  grupo_barrio Latin1.data (lit "PANADERIA")
    [Sample.half_located; Sample.local "PANADERIA" "CENTRO" "RETIRO"]
  = grupo_barrio Latin1.data (lit "PANADERIA")
      [Sample.local "PANADERIA" "CENTRO" "RETIRO";
       Sample.local "PANADERIA" "CENTRO" "RETIRO"]
  ∧ grupo_distrito Latin1.data (lit "PANADERIA")
      [Sample.half_located; Sample.local "PANADERIA" "CENTRO" "RETIRO"]
    = grupo_distrito Latin1.data (lit "PANADERIA")
        [Sample.local "PANADERIA" "CENTRO" "RETIRO";
         Sample.local "PANADERIA" "CENTRO" "RETIRO"].
Proof.
  apply (proj1 (aggregation_ignores_coordinates Latin1.data (lit "PANADERIA"))).
  reflexivity.
Defined.

(** A record without coordinates is counted in its neighbourhood. *)
Example grupo_barrio_counts_unlocated :
  grupo_barrio Latin1.data (lit "PANADERIA")
    [Sample.half_located; Sample.local "PANADERIA" "CENTRO" "RETIRO";
     Sample.local "BAR" "SOL" "CENTRO"]
  = [(lit "CENTRO", 2%Z)].
Proof. by vm_compute. Qed.

(* ================================================================= *)
(** * More on tiering *)
(* ================================================================= *)

Lemma searchsorted_left_mono (bins : list Q) (x y : Q) :
  (x <= y)%Q → searchsorted_left bins x ≤ searchsorted_left bins y.
Proof.
  intros Hxy. induction bins as [|b bins IH]; simpl; [done|].
  destruct (Qle_bool x b) eqn:Hx; [lia|].
  destruct (Qle_bool y b) eqn:Hy; [|lia].
  apply Qle_bool_iff in Hy.
  assert (Qle_bool x b = true) by (apply Qle_bool_iff; by apply (Qle_trans _ y)).
  congruence.
Qed.

Lemma strictly_sorted_lookup {A} (R : relation A) (l : list A) i j x y :
  StronglySorted R l → i < j → l !! i = Some x → l !! j = Some y → R x y.
Proof.
  intros Hl. revert i j.
  induction Hl as [|z l Hl IH Hz]; intros i j Hij Hi Hj; [done|].
  destruct j as [|j]; [lia|]. simpl in Hj. destruct i as [|i]; simpl in Hi.
  - injection Hi as ->. apply list_elem_of_lookup_2 in Hj.
    by eapply Forall_forall in Hz.
  - apply (IH i j); [lia|done..].
Qed.

(** What a successful binning returns, value by value. *)
Lemma bins_to_cuts_lookup x bins labels r i v :
  bins_to_cuts x bins labels = Return r → x !! i = Some v →
  r !! i
  = Some (let id :=
            if from_option (Qeq_bool (inject_Z v)) false
                 (head (drop_duplicates bins))
            then 1
            else searchsorted_left (drop_duplicates bins) (inject_Z v) in
          if (id =? length (drop_duplicates bins)) || (id =? 0) then None
          else labels !! (id - 1)).
Proof.
  unfold bins_to_cuts. case_match; [done|]. intros [= <-] Hv.
  by rewrite !list_lookup_fmap, Hv.
Qed.

Lemma qcut_monotone s q0 qs labels r i j x y tx ty :
  (q0 == 0)%Q →
  StronglySorted (λ a b, tier_rank a < tier_rank b) labels →
  qcut s (q0 :: qs) labels = Return r →
  s !! i = Some x → s !! j = Some y → (x <= y)%Z →
  r !! i = Some (Some tx) → r !! j = Some (Some ty) →
  tier_rank tx ≤ tier_rank ty.
Proof.
  intros Hq0 Hlabels Hr Hx Hy Hxy Hi Hj. unfold qcut in Hr.
  rewrite (bins_to_cuts_lookup _ _ _ _ i x Hr Hx) in Hi.
  rewrite (bins_to_cuts_lookup _ _ _ _ j y Hr Hy) in Hj.
  rewrite drop_duplicates_head, fmap_cons in Hi, Hj. simpl in Hi, Hj.
  set (bins := drop_duplicates (quantile s q0 :: (quantile s <$> qs))) in *.
  assert (Hhead : head bins = Some (quantile s q0))
    by (subst bins; by rewrite drop_duplicates_head).
  assert (Hlow : (quantile s q0 <= inject_Z x)%Q).
  { apply (quantile_bounds s q0 1 x); [done|reflexivity|].
    by eapply list_elem_of_lookup_2. }
  set (idx := if Qeq_bool (inject_Z x) (quantile s q0) then 1
              else searchsorted_left bins (inject_Z x)) in *.
  set (idy := if Qeq_bool (inject_Z y) (quantile s q0) then 1
              else searchsorted_left bins (inject_Z y)) in *.
  assert (Hid : idx ≤ idy).
  { subst idx idy.
    destruct (Qeq_bool (inject_Z x) (quantile s q0)) eqn:Ex,
             (Qeq_bool (inject_Z y) (quantile s q0)) eqn:Ey; [done| | |].
    - destruct (searchsorted_left bins (inject_Z y)) eqn:Hss; [|lia].
      apply (searchsorted_left_0 _ _ _ Hhead) in Hss.
      apply Qeq_bool_neq in Ey. destruct Ey. apply Qle_antisym; [done|].
      apply Qeq_bool_eq in Ex. rewrite <-Ex, <-Zle_Qle. done.
    - apply Qeq_bool_neq in Ex. destruct Ex. apply Qle_antisym; [|done].
      apply Qeq_bool_eq in Ey. rewrite <-Ey, <-Zle_Qle. done.
    - apply searchsorted_left_mono. by rewrite <-Zle_Qle. }
  destruct ((idx =? length bins) || (idx =? 0)) eqn:Hnax; [done|].
  destruct ((idy =? length bins) || (idy =? 0)) eqn:Hnay; [done|].
  apply orb_false_iff in Hnax as [_ Hx0%Nat.eqb_neq].
  injection Hi as Hi. injection Hj as Hj.
  destruct (decide (idx - 1 = idy - 1)) as [Heq|Hne].
  - rewrite Heq, Hj in Hi. by injection Hi as ->.
  - apply Nat.lt_le_incl.
    apply (strictly_sorted_lookup (λ a b, tier_rank a < tier_rank b) labels
             (idx - 1) (idy - 1) tx ty); [done|lia|done..].
Qed.

Lemma median_split_lookup s i x :
  s !! i = Some x →
  median_split s !! i
  = Some (Some (if Qle_bool (inject_Z x) (median s) then Baja else Alta)).
Proof. intros Hx. unfold median_split. by rewrite list_lookup_fmap, Hx. Qed.

Lemma tertile_split_lookup s i x :
  s !! i = Some x →
  tertile_split s !! i
  = Some (Some (if Qle_bool (inject_Z x) (quantile s (33 # 100)) then Muy_baja
                else if Qle_bool (inject_Z x) (quantile s (67 # 100)) then Baja
                     else Media)).
Proof. intros Hx. unfold tertile_split. by rewrite list_lookup_fmap, Hx. Qed.

Lemma Qle_bool_mono (x y : Z) (m : Q) :
  (x <= y)%Z → Qle_bool (inject_Z y) m = true → Qle_bool (inject_Z x) m = true.
Proof.
  intros Hxy Hy. apply Qle_bool_iff. apply Qle_bool_iff in Hy.
  apply (Qle_trans _ (inject_Z y)); [by rewrite <-Zle_Qle|done].
Qed.

Lemma median_split_monotone s i j x y tx ty :
  s !! i = Some x → s !! j = Some y → (x <= y)%Z →
  median_split s !! i = Some (Some tx) → median_split s !! j = Some (Some ty) →
  tier_rank tx ≤ tier_rank ty.
Proof.
  intros Hx Hy Hxy. rewrite (median_split_lookup s i x Hx),
    (median_split_lookup s j y Hy).
  intros [= <-] [= <-].
  destruct (Qle_bool (inject_Z y) (median s)) eqn:Ey.
  - by rewrite (Qle_bool_mono x y _ Hxy Ey).
  - case_match; simpl; lia.
Qed.

Lemma tertile_split_monotone s i j x y tx ty :
  s !! i = Some x → s !! j = Some y → (x <= y)%Z →
  tertile_split s !! i = Some (Some tx) →
  tertile_split s !! j = Some (Some ty) →
  tier_rank tx ≤ tier_rank ty.
Proof.
  intros Hx Hy Hxy. rewrite (tertile_split_lookup s i x Hx),
    (tertile_split_lookup s j y Hy).
  intros [= <-] [= <-].
  destruct (Qle_bool (inject_Z y) (quantile s (33 # 100))) eqn:Ey.
  - by rewrite (Qle_bool_mono x y _ Hxy Ey).
  - destruct (Qle_bool (inject_Z y) (quantile s (67 # 100))) eqn:Ey'.
    + rewrite (Qle_bool_mono x y _ Hxy Ey'). case_match; simpl; lia.
    + repeat case_match; simpl; lia.
Qed.

Lemma default_labels_ranked :
  StronglySorted (λ a b, tier_rank a < tier_rank b) default_labels
  ∧ StronglySorted (λ a b, tier_rank a < tier_rank b) [Baja; Media; Alta].
Proof. split; repeat constructor; simpl; lia. Qed.

Lemma tiers_monotone (s : list Z) r i j x y tx ty :
  quantile_labels s = Return r →
  s !! i = Some x → s !! j = Some y → (x <= y)%Z →
  r !! i = Some (Some tx) → r !! j = Some (Some ty) →
  tier_rank tx ≤ tier_rank ty.
Proof.
  intros Hr Hx Hy Hxy Hi Hj.
  destruct default_labels_ranked as [Hl4 Hl3].
  destruct (decide (nunique s ≤ 1)) as [Hn|Hn].
  { rewrite quantile_labels_constant_series in Hr by done. injection Hr as <-.
    apply list_elem_of_lookup_2, elem_of_replicate_inv in Hi, Hj.
    by injection Hi as ->; injection Hj as ->. }
  rewrite quantile_labels_varied in Hr by lia.
  destruct (qcut s default_q default_labels) as [r0|e] eqn:Hq.
  { injection Hr as ->.
    by apply (qcut_monotone s 0 [1 # 4; 1 # 2; 3 # 4; 1]%Q default_labels r
                i j x y). }
  destruct (qcut_fallback_ladder s) as (H2 & H3 & H4).
  destruct (decide (nunique s = 2)) as [E2|N2].
  { rewrite (H2 E2) in Hr. injection Hr as <-.
    by apply (median_split_monotone s i j x y). }
  destruct (decide (nunique s = 3)) as [E3|N3].
  { rewrite (H3 E3) in Hr. injection Hr as <-.
    by apply (tertile_split_monotone s i j x y). }
  rewrite H4 in Hr by lia.
  destruct (qcut s (linspace 3) [Baja; Media; Alta]) as [r1|e1] eqn:Hq1.
  - injection Hr as ->.
    apply (qcut_monotone s (0 # 3) [1 # 3; 2 # 3; 3 # 3]%Q [Baja; Media; Alta] r
             i j x y); try done.
  - injection Hr as <-. by apply (median_split_monotone s i j x y).
Qed.

Lemma tier_rank_inj (a b : tier) : tier_rank a = tier_rank b → a = b.
Proof. by destruct a, b. Qed.

(** X1. The tiers follow the counts: of two rows, the one with the larger
    count never gets the lower tier, and rows with equal counts get the same
    tier. *)
Theorem tiers_follow_counts (s : list Z) r i j x y tx ty :
  quantile_labels s = Return r →
  s !! i = Some x → s !! j = Some y →
  r !! i = Some (Some tx) → r !! j = Some (Some ty) →
  ((x <= y)%Z → tier_rank tx ≤ tier_rank ty) ∧ (x = y → tx = ty).
Proof.
  intros Hr Hx Hy Hi Hj. split.
  - intros Hxy. by apply (tiers_monotone s r i j x y).
  - intros ->. apply tier_rank_inj, Nat.le_antisymm.
    + by apply (tiers_monotone s r i j y y).
    + by apply (tiers_monotone s r j i y y).
Qed.

Lemma nthZ_elem (a : list Z) (k : Z) :
  (0 <= k < Z.of_nat (length a))%Z → nthZ a k ∈ a.
Proof.
  intros Hk. unfold nthZ.
  destruct (lookup_lt_is_Some_2 a (Z.to_nat k)) as [v Hv]; [lia|].
  rewrite Hv. simpl. by eapply list_elem_of_lookup_2.
Qed.

Lemma elem_of_perm {A} (l k : list A) (x : A) : l ≡ₚ k → x ∈ l → x ∈ k.
Proof. intros Hp Hx. by rewrite <-Hp. Qed.

Lemma minimum_le_quantile (s : list Z) (q : Q) (x : Z) :
  x ∈ s → (∀ y, y ∈ s → (x <= y)%Z) → (0 <= q)%Q → (q <= 1)%Q →
  (inject_Z x <= quantile s q)%Q.
Proof.
  intros Hx Hmin Hq0 Hq1.
  assert (Hs : s ≠ []) by (intros ->; by apply elem_of_nil in Hx).
  destruct (quantile_position s q Hs Hq0 Hq1) as (Hlo & Hlh & Hhi & _ & _ & Hl & _).
  destruct (sorted_series s) as [_ Hperm].
  set (a := merge_sort Z.le s) in *.
  set (lo := Qfloor (q * inject_Z (Z.of_nat (length a) - 1))) in *.
  apply (Qle_trans _ (inject_Z (nthZ a lo))); [|done].
  rewrite <-Zle_Qle. apply Hmin.
  apply (elem_of_perm a s _ Hperm), nthZ_elem. lia.
Qed.

Lemma minimum_le_median (s : list Z) (x : Z) :
  x ∈ s → (∀ y, y ∈ s → (x <= y)%Z) → (inject_Z x <= median s)%Q.
Proof.
  intros Hx Hmin. destruct (sorted_series s) as [_ Hperm].
  unfold median. set (a := merge_sort Z.le s) in *.
  assert (Hn : (1 <= Z.of_nat (length a))%Z).
  { rewrite Hperm. destruct s; [by apply elem_of_nil in Hx|simpl; lia]. }
  assert (Hk : ∀ k, (0 <= k < Z.of_nat (length a))%Z →
                    (inject_Z x <= inject_Z (nthZ a k))%Q).
  { intros k Hk%nthZ_elem. rewrite <-Zle_Qle. apply Hmin.
    by apply (elem_of_perm a s _ Hperm). }
  destruct (Z.odd (Z.of_nat (length a))) eqn:Hodd.
  - apply Hk. split; [apply Z.div_pos; lia|apply Z.div_lt_upper_bound; lia].
  - assert (Heven : (2 <= Z.of_nat (length a))%Z).
    { destruct (decide (Z.of_nat (length a) = 1%Z)) as [E|]; [|lia].
      by rewrite E in Hodd. }
    assert (H1 := Hk (Z.of_nat (length a) / 2 - 1)%Z).
    assert (H2 := Hk (Z.of_nat (length a) / 2)%Z).
    assert (Hd : (1 <= Z.of_nat (length a) / 2 < Z.of_nat (length a))%Z).
    { split; [apply Z.div_le_lower_bound; lia|apply Z.div_lt_upper_bound; lia]. }
    specialize (H1 ltac:(lia)). specialize (H2 ltac:(lia)).
    apply Qle_shift_div_l; [reflexivity|]. lra.
Qed.

(** The least value of a series gets the first label of a successful
    binning. *)
Lemma qcut_minimum s q0 qs labels r i x :
  (q0 == 0)%Q → labels ≠ [] →
  qcut s (q0 :: qs) labels = Return r →
  s !! i = Some x → (∀ y, y ∈ s → (x <= y)%Z) →
  r !! i = Some (head labels).
Proof.
  intros Hq0 Hlabels Hr Hx Hmin. unfold qcut in Hr.
  rewrite (bins_to_cuts_lookup _ _ _ _ i x Hr Hx).
  rewrite drop_duplicates_head, fmap_cons. simpl.
  assert (Hin : x ∈ s) by by eapply list_elem_of_lookup_2.
  assert (Heq : Qeq_bool (inject_Z x) (quantile s q0) = true).
  { apply Qeq_bool_iff, Qle_antisym.
    - apply minimum_le_quantile; [done..| |]; rewrite Hq0; by vm_compute.
    - by apply (quantile_bounds s q0 1 x). }
  rewrite Heq. unfold bins_to_cuts in Hr.
  destruct (length labels =? _) eqn:Hlen; [|done]. apply Nat.eqb_eq in Hlen.
  rewrite fmap_cons in Hlen.
  replace (1 =? _) with false.
  - simpl. by destruct labels.
  - symmetry. apply Nat.eqb_neq. destruct labels; [done|]. simpl in Hlen. lia.
Qed.

(** X2. With at least two distinct counts, a row with the least count gets
    the lowest label in use, "Muy baja" or "Baja". *)
Theorem least_count_lowest_tier (s : list Z) r i x :
  2 ≤ nunique s →
  quantile_labels s = Return r →
  s !! i = Some x → (∀ y, y ∈ s → (x <= y)%Z) →
  r !! i = Some (Some Muy_baja) ∨ r !! i = Some (Some Baja).
Proof.
  intros Hn Hr Hx Hmin.
  assert (Hin : x ∈ s) by by eapply list_elem_of_lookup_2.
  rewrite quantile_labels_varied in Hr by lia.
  destruct (qcut s default_q default_labels) as [r0|e] eqn:Hq.
  { injection Hr as ->. left.
    by rewrite (qcut_minimum s 0 [1 # 4; 1 # 2; 3 # 4; 1]%Q default_labels r i x). }
  assert (Hmed : median_split s !! i = Some (Some Baja)).
  { rewrite (median_split_lookup s i x Hx).
    by rewrite (proj2 (Qle_bool_iff _ _) (minimum_le_median s x Hin Hmin)). }
  destruct (qcut_fallback_ladder s) as (H2 & H3 & H4).
  destruct (decide (nunique s = 2)) as [E2|N2].
  { rewrite (H2 E2) in Hr. injection Hr as <-. by right. }
  destruct (decide (nunique s = 3)) as [E3|N3].
  { rewrite (H3 E3) in Hr. injection Hr as <-. left.
    rewrite (tertile_split_lookup s i x Hx).
    assert (Hq33 : Qle_bool (inject_Z x) (quantile s (33 # 100)) = true).
    { apply Qle_bool_iff, minimum_le_quantile; try done; by vm_compute. }
    by rewrite Hq33. }
  rewrite H4 in Hr by lia.
  destruct (qcut s (linspace 3) [Baja; Media; Alta]) as [r1|e1] eqn:Hq1.
  - injection Hr as ->. right.
    by rewrite (qcut_minimum s (0 # 3) [1 # 3; 2 # 3; 3 # 3]%Q
                  [Baja; Media; Alta] r i x).
  - injection Hr as <-. by right.
Qed.

Lemma sin_datos_not_a_label :
  (Sin_datos ∉ default_labels) ∧ (Sin_datos ∉ [Baja; Media; Alta]).
Proof.
  split; intros Hin;
    repeat (apply elem_of_cons in Hin as [?|Hin]; [done|]);
    by apply elem_of_nil in Hin.
Qed.

Lemma bins_to_cuts_labels x bins labels r t :
  bins_to_cuts x bins labels = Return r → Some t ∈ r → t ∈ labels.
Proof.
  intros Hr [i Hi]%list_elem_of_lookup.
  destruct (x !! i) as [v|] eqn:Hv.
  - rewrite (bins_to_cuts_lookup _ _ _ _ i v Hr Hv) in Hi.
    injection Hi as Hi. case_match; [done|].
    by eapply list_elem_of_lookup_2.
  - unfold bins_to_cuts in Hr. case_match; [done|]. injection Hr as <-.
    by rewrite !list_lookup_fmap, Hv in Hi.
Qed.

(** A series with at most one distinct value is labelled "Sin datos"
    throughout, and a series with more never has the label. *)
Lemma sin_datos_dichotomy (s : list Z) r :
  quantile_labels s = Return r →
  (nunique s ≤ 1 ∧ r = replicate (length s) (Some Sin_datos))
  ∨ (2 ≤ nunique s ∧ Some Sin_datos ∉ r).
Proof.
  intros Hr. destruct (decide (nunique s ≤ 1)) as [Hn|Hn].
  { left. split; [done|].
    rewrite quantile_labels_constant_series in Hr by done. by injection Hr. }
  right. split; [lia|]. intros Hin.
  rewrite quantile_labels_varied in Hr by lia.
  assert (Hm : Some Sin_datos ∉ median_split s).
  { unfold median_split. intros (v & Hv & _)%list_elem_of_fmap.
    by case_match. }
  destruct (qcut s default_q default_labels) as [r0|e] eqn:Hq.
  { injection Hr as ->.
    apply (bins_to_cuts_labels _ _ _ _ _ Hq) in Hin.
    by apply (proj1 sin_datos_not_a_label). }
  destruct (qcut_fallback_ladder s) as (H2 & H3 & H4).
  destruct (decide (nunique s = 2)) as [E2|N2].
  { rewrite (H2 E2) in Hr. by injection Hr as <-. }
  destruct (decide (nunique s = 3)) as [E3|N3].
  { rewrite (H3 E3) in Hr. injection Hr as <-.
    unfold tertile_split in Hin.
    apply list_elem_of_fmap in Hin as (v & Hv & _). by repeat case_match. }
  rewrite H4 in Hr by lia.
  destruct (qcut s (linspace 3) [Baja; Media; Alta]) as [r1|e1] eqn:Hq1.
  - injection Hr as ->.
    apply (bins_to_cuts_labels _ _ _ _ _ Hq1) in Hin.
    by apply (proj2 sin_datos_not_a_label).
  - by injection Hr as <-.
Qed.

(** X3. "Sin datos" is all or nothing: on a series that is not empty, the
    label occurs exactly when the series has at most one distinct value, and
    then every row has it. *)
Theorem sin_datos_iff_constant (s : list Z) r :
  s ≠ [] → quantile_labels s = Return r →
  (Some Sin_datos ∈ r ↔ nunique s ≤ 1)
  ∧ (Some Sin_datos ∈ r → Forall (λ c, c = Some Sin_datos) r).
Proof.
  intros Hs Hr.
  destruct (sin_datos_dichotomy s r Hr) as [[Hn ->]|[Hn Hout]].
  - split; [split; [done|]|].
    + intros _. apply elem_of_replicate. split; [done|]. by destruct s.
    + intros _. apply Forall_forall. by intros c ->%elem_of_replicate_inv.
  - split; [split|]; [done|lia|done].
Qed.

Lemma tiers_follow_counts_witness :
  ((1 <= 4)%Z → tier_rank Muy_baja ≤ tier_rank Alta)
  ∧ (1%Z = 4%Z → Muy_baja = Alta).
Proof.
  apply (tiers_follow_counts [4; 1; 3; 2]%Z
           (Some <$> [Alta; Muy_baja; Media; Baja]) 1 0).
  - vm_compute. reflexivity.
  - reflexivity.
  - reflexivity.
  - reflexivity.
  - reflexivity.
Defined.

Lemma least_count_lowest_tier_witness :
  (Some <$> [Baja; Baja; Baja; Alta]) !! 0 = Some (Some Muy_baja)
  ∨ (Some <$> [Baja; Baja; Baja; Alta]) !! 0 = Some (Some Baja).
Proof.
  apply (least_count_lowest_tier [0; 0; 0; 5]%Z _ 0 0%Z).
  - vm_compute. lia.
  - vm_compute. reflexivity.
  - reflexivity.
  - intros y Hy.
    repeat (apply elem_of_cons in Hy as [->|Hy]; [lia|]).
    by apply elem_of_nil in Hy.
Defined.

Lemma sin_datos_iff_constant_witness :
  (Some Sin_datos ∈ replicate 3 (Some Sin_datos) ↔ nunique [4; 4; 4]%Z ≤ 1)
  ∧ (Some Sin_datos ∈ replicate 3 (Some Sin_datos)
     → Forall (λ c, c = Some Sin_datos) (replicate 3 (Some Sin_datos))).
Proof.
  apply (sin_datos_iff_constant [4; 4; 4]%Z).
  - discriminate.
  - reflexivity.
Defined.

(* ================================================================= *)
(** * More on the boundary index *)
(* ================================================================= *)

Section Index.
Context (U : unicode_data).

Lemma index_features_foldl prop_key features :
  index_features U prop_key features
  = foldl (λ m feat, match feature_key U prop_key feat with
                     | None => m
                     | Some k => <[k := feat]> m
                     end) ∅ features.
Proof.
  unfold index_features. generalize (∅ : gmap (list N) feature).
  induction features as [|feat features IH]; intros m; [done|].
  simpl. rewrite IH. f_equal. unfold feature_key, feature_name.
  by case_match.
Qed.

(** X4. Under a key, the index of a boundary file holds the last feature of
    the file whose name normalises to that key, and it holds nothing under a
    key no feature has: of two features with the same normalised name the
    later one replaces the earlier, and a feature without a name is left
    out. *)
Theorem index_features_lookup prop_key features k :
  index_features U prop_key features !! k
  = last (filter (λ feat, feature_key U prop_key feat = Some k) features).
Proof.
  rewrite index_features_foldl.
  enough (H : ∀ m : gmap (list N) feature,
            foldl (λ m feat, match feature_key U prop_key feat with
                             | None => m
                             | Some k => <[k := feat]> m
                             end) m features !! k
            = match last (filter (λ feat, feature_key U prop_key feat = Some k)
                                 features) with
              | Some feat => Some feat
              | None => m !! k
              end).
  { rewrite H, lookup_empty. by case_match. }
  induction features as [|feat features IH]; intros m; [done|].
  simpl. rewrite IH, filter_cons.
  destruct (decide (feature_key U prop_key feat = Some k)) as [Hk|Hk].
  - rewrite Hk, lookup_insert_eq, last_cons. by destruct (last _).
  - destruct (feature_key U prop_key feat) as [k'|]; [|done].
    rewrite lookup_insert_ne; [done|congruence].
Qed.

End Index.

(* ================================================================= *)
(** * More on centroids *)
(* ================================================================= *)









(* ================================================================= *)
(** * More on coordinate completion *)
(* ================================================================= *)

Section MoreCompletion.
Context (U : unicode_data).

Implicit Types (r : record) (df : list record).

Lemma complete_row_located (B D : gmap (list N) feature) r :
  isna (lat r) || isna (lon r) = false → complete_row U B D r = r.
Proof.
  intros Hr. unfold complete_row.
  rewrite (fill_row_complete U B _ r Hr). by apply fill_row_complete.
Qed.

Lemma complete_row_idempotent (B D : gmap (list N) feature) r :
  complete_row U B D (complete_row U B D r) = complete_row U B D r.
Proof.
  unfold complete_row.
  destruct (fill_row_cases U B desc_barrio_local r)
    as [Hb|(la & lo & Hm & Hc & Hb)]; rewrite Hb.
  - destruct (fill_row_cases U D desc_distrito_local r)
      as [Hd|(la & lo & Hm & Hc & Hd)]; rewrite Hd.
    + by rewrite Hb, Hd.
    + rewrite (fill_row_complete U B) by done. by apply fill_row_complete.
  - rewrite (fill_row_complete U D) by done.
    rewrite (fill_row_complete U B) by done. by apply fill_row_complete.
Qed.

(** X6. The completion leaves a record that has both coordinates as it
    is. *)
Theorem completion_keeps_located
    (barrios_index distritos_index : option (gmap (list N) feature)) df i r :
  df !! i = Some r →
  notna (lat r) = true → notna (lon r) = true →
  complete_coordinates U barrios_index distritos_index df !! i = Some r.
Proof.
  intros Hi Hlat Hlon. rewrite complete_coordinates_lookup, Hi. simpl.
  f_equal. apply complete_row_located. unfold isna. by rewrite Hlat, Hlon.
Qed.

(** X7. Completing the coordinates a second time, with the same boundary
    files, changes nothing. *)
Theorem completion_idempotent
    (barrios_index distritos_index : option (gmap (list N) feature)) df :
  complete_coordinates U barrios_index distritos_index
    (complete_coordinates U barrios_index distritos_index df)
  = complete_coordinates U barrios_index distritos_index df.
Proof.
  rewrite !complete_coordinates_rowwise, <-list_fmap_compose.
  apply list_fmap_ext. intros i r _. apply complete_row_idempotent.
Qed.

(** The completion works record by record: no record's result depends on
    another record. *)
Lemma completion_record_by_record
    (barrios_index distritos_index : option (gmap (list N) feature)) df1 df2 :
  complete_coordinates U barrios_index distritos_index (df1 ++ df2)
  = complete_coordinates U barrios_index distritos_index df1
    ++ complete_coordinates U barrios_index distritos_index df2.
Proof. by rewrite !complete_coordinates_rowwise, fmap_app. Qed.

(** X8. The completion changes coordinates only, and only of a record with
    a missing coordinate: a completed record is the original one, or it
    carries the latitude and longitude of a valid centroid of its
    neighbourhood or of its district. *)
Theorem completion_sources
    (barrios_index distritos_index : option (gmap (list N) feature))
    df i r r' :
  df !! i = Some r →
  complete_coordinates U barrios_index distritos_index df !! i = Some r' →
  area_fields r' = area_fields r
  ∧ (r' = r
     ∨ (isna (lat r) || isna (lon r) = true
        ∧ ∃ la lo, lat r' = Some la ∧ lon r' = Some lo
            ∧ (area_centroid U (default ∅ barrios_index) (desc_barrio_local r)
               = (Some la, Some lo)
               ∨ area_centroid U (default ∅ distritos_index)
                   (desc_distrito_local r) = (Some la, Some lo)))).
Proof.
  intros Hi Hi'. rewrite complete_coordinates_lookup, Hi in Hi'.
  injection Hi' as <-. unfold complete_row.
  split; [by rewrite !fill_row_area_fields|].
  destruct (fill_row_cases U (default ∅ barrios_index) desc_barrio_local r)
    as [->|(la & lo & Hm & Hc & ->)].
  - destruct (fill_row_cases U (default ∅ distritos_index)
                desc_distrito_local r) as [->|(la & lo & Hm & Hc & ->)];
      [by left|].
    right. split; [done|]. exists la, lo. eauto.
  - right. split; [done|]. exists la, lo.
    rewrite fill_row_complete by done. eauto.
Qed.

(** X9. After the completion a record has both coordinates exactly when it
    had both before, or its neighbourhood has a valid centroid, or its
    district has one. *)
Theorem completion_locates
    (barrios_index distritos_index : option (gmap (list N) feature))
    df i r r' :
  df !! i = Some r →
  complete_coordinates U barrios_index distritos_index df !! i = Some r' →
  (notna (lat r') = true ∧ notna (lon r') = true)
  ↔ ((notna (lat r) = true ∧ notna (lon r) = true)
     ∨ (∃ la lo, area_centroid U (default ∅ barrios_index)
                   (desc_barrio_local r) = (Some la, Some lo))
     ∨ (∃ la lo, area_centroid U (default ∅ distritos_index)
                   (desc_distrito_local r) = (Some la, Some lo))).
Proof.
  intros Hi Hi'. rewrite complete_coordinates_lookup, Hi in Hi'.
  injection Hi' as <-. unfold complete_row.
  destruct (isna (lat r) || isna (lon r)) eqn:Hmiss.
  - assert (Hnot : ¬ (notna (lat r) = true ∧ notna (lon r) = true)).
    { unfold isna in Hmiss. intros [Hla Hlo]. by rewrite Hla, Hlo in Hmiss. }
    destruct (area_centroid U (default ∅ barrios_index) (desc_barrio_local r))
      as [lab lob] eqn:Hb.
    destruct (decide (is_Some lab ∧ is_Some lob)) as [[[la ->] [lo ->]]|Hbad].
    { rewrite (fill_row_valid U _ _ r la lo Hmiss Hb).
      rewrite fill_row_complete by done. split; [eauto 10|done]. }
    assert (Hfb : fill_row U (default ∅ barrios_index) desc_barrio_local r = r).
    { apply fill_row_nan. rewrite Hb. simpl.
      destruct lab, lob; try (by left); try (by right).
      destruct Hbad. split; by eexists. }
    rewrite Hfb.
    destruct (area_centroid U (default ∅ distritos_index)
                (desc_distrito_local r)) as [lad lod] eqn:Hd.
    destruct (decide (is_Some lad ∧ is_Some lod)) as [[[la ->] [lo ->]]|Hbad'].
    { rewrite (fill_row_valid U _ _ r la lo Hmiss Hd). split; [eauto 10|done]. }
    assert (Hfd : fill_row U (default ∅ distritos_index) desc_distrito_local r = r).
    { apply fill_row_nan. rewrite Hd. simpl.
      destruct lad, lod; try (by left); try (by right).
      destruct Hbad'. split; by eexists. }
    rewrite Hfd. split; [done|].
    intros [?|[(la & lo & [= -> ->])|(la & lo & [= -> ->])]]; [done| |].
    + destruct Hbad. split; by eexists.
    + destruct Hbad'. split; by eexists.
  - rewrite (fill_row_complete U _ _ r Hmiss).
    rewrite (fill_row_complete U _ _ r Hmiss).
    unfold isna in Hmiss. apply orb_false_iff in Hmiss as [Hla Hlo].
    apply negb_false_iff in Hla, Hlo. split; [by left|done].
Qed.

End MoreCompletion.

Lemma completion_keeps_located_witness :
  complete_coordinates Latin1.data (Some Sample.barrios_index)
    (Some Sample.distritos_index) [Sample.half_located; Fixtures.located] !! 1
  = Some Fixtures.located.
Proof.
  apply completion_keeps_located.
  - reflexivity.
  - reflexivity.
  - reflexivity.
Defined.

Lemma completion_sources_witness :
  area_fields (MkRecord (Some (lit "PANADERIA")) (Some (lit "CENTRO"))
                 (Some (lit "RETIRO")) (Some (199 # 5)%Q) (Some (-16 # 5)%Q))
  = area_fields Sample.half_located
  ∧ (MkRecord (Some (lit "PANADERIA")) (Some (lit "CENTRO"))
       (Some (lit "RETIRO")) (Some (199 # 5)%Q) (Some (-16 # 5)%Q)
     = Sample.half_located
     ∨ (isna (lat Sample.half_located) || isna (lon Sample.half_located) = true
        ∧ ∃ la lo,
            Some (199 # 5)%Q = Some la ∧ Some (-16 # 5)%Q = Some lo
            ∧ (area_centroid Latin1.data Sample.barrios_index
                 (desc_barrio_local Sample.half_located) = (Some la, Some lo)
               ∨ area_centroid Latin1.data Sample.distritos_index
                   (desc_distrito_local Sample.half_located)
                 = (Some la, Some lo)))).
Proof.
  apply (completion_sources Latin1.data (Some Sample.barrios_index)
           (Some Sample.distritos_index) [Sample.half_located] 0).
  - reflexivity.
  - vm_compute. reflexivity.
Defined.

Lemma completion_locates_witness :
  (notna (Some (240 # 5)%Q) = true ∧ notna (Some (40 # 5)%Q) = true)
  ↔ ((notna (lat (Sample.local "BAR" "SOL" "RETIRO")) = true
      ∧ notna (lon (Sample.local "BAR" "SOL" "RETIRO")) = true)
     ∨ (∃ la lo, area_centroid Latin1.data Sample.barrios_index
                   (desc_barrio_local (Sample.local "BAR" "SOL" "RETIRO"))
                 = (Some la, Some lo))
     ∨ (∃ la lo, area_centroid Latin1.data Sample.distritos_index
                   (desc_distrito_local (Sample.local "BAR" "SOL" "RETIRO"))
                 = (Some la, Some lo))).
Proof.
  apply (completion_locates Latin1.data (Some Sample.barrios_index)
           (Some Sample.distritos_index) [Sample.local "BAR" "SOL" "RETIRO"] 0
           (Sample.local "BAR" "SOL" "RETIRO")
           (MkRecord (Some (lit "BAR")) (Some (lit "SOL"))
              (Some (lit "RETIRO")) (Some (240 # 5)%Q) (Some (40 # 5)%Q))).
  - reflexivity.
  - vm_compute. reflexivity.
Defined.

(* ================================================================= *)
(** * More on aggregation and the opportunity table *)
(* ================================================================= *)

Lemma sumZ_perm (l k : list Z) :
  l ≡ₚ k → foldr Z.add 0%Z l = foldr Z.add 0%Z k.
Proof. induction 1; simpl; lia. Qed.

Lemma sumZ_indicator (keys : list (list N)) (k0 : list N) :
  NoDup keys → k0 ∈ keys →
  foldr Z.add 0%Z ((λ k, if decide (Some k0 = Some k) then 1 else 0)%Z <$> keys)
  = 1%Z.
Proof.
  induction keys as [|k keys IH]; [by intros _ ?%elem_of_nil|].
  intros [Hk Hkeys]%NoDup_cons Hin. rewrite fmap_cons. simpl.
  destruct (decide (Some k0 = Some k)) as [[= ->]|Hne].
  - assert (Hz : foldr Z.add 0%Z
             ((λ k', if decide (Some k = Some k') then 1 else 0)%Z <$> keys)
             = 0%Z); [|lia].
    clear IH Hin Hkeys. induction keys as [|k' keys IH]; [done|].
    rewrite fmap_cons. simpl. apply not_elem_of_cons in Hk as [Hne Hk].
    rewrite decide_False by congruence. by rewrite IH.
  - apply elem_of_cons in Hin as [->|Hin]; [done|]. by rewrite IH.
Qed.

Lemma sumZ_zero {A} (l : list A) : foldr Z.add 0%Z ((λ _, 0%Z) <$> l) = 0%Z.
Proof. induction l as [|a l IH]; [done|]. rewrite fmap_cons. simpl. lia. Qed.

Lemma sumZ_plus {A} (f g : A → Z) (l : list A) :
  foldr Z.add 0%Z ((λ a, f a + g a)%Z <$> l)
  = (foldr Z.add 0%Z (f <$> l) + foldr Z.add 0%Z (g <$> l))%Z.
Proof. induction l as [|a l IH]; [done|]. rewrite !fmap_cons. simpl. lia. Qed.

(** The sizes of the groups of a set of keys that covers the column add up
    to the number of rows that have a key. *)
Lemma group_sizes_sum (col : record → option (list N)) (df : list record)
    (keys : list (list N)) :
  NoDup keys → (∀ r k, r ∈ df → col r = Some k → k ∈ keys) →
  foldr Z.add 0%Z (group_size col df <$> keys)
  = Z.of_nat (length (omap col df)).
Proof.
  intros Hkeys. induction df as [|r df IH]; intros Hcover.
  { unfold group_size. simpl. apply sumZ_zero. }
  assert (Hstep : ∀ k, group_size col (r :: df) k
                       = ((if decide (col r = Some k) then 1 else 0)
                          + group_size col df k)%Z).
  { intros k. unfold group_size. rewrite filter_cons.
    case_decide; simpl length; lia. }
  rewrite (list_fmap_ext _ _ keys (λ _ k _, Hstep k)).
  rewrite (sumZ_plus (λ k, if decide (col r = Some k) then 1 else 0)%Z).
  rewrite IH by (intros r' k Hr'; apply Hcover; by right).
  assert (Hom : Z.of_nat (length (omap col (r :: df)))
                = ((match col r with Some _ => 1 | None => 0 end)
                   + Z.of_nat (length (omap col df)))%Z).
  { change (omap col (r :: df))
      with (match col r with Some y => y :: omap col df | None => omap col df end).
    destruct (col r); simpl length; lia. }
  rewrite Hom. destruct (col r) as [k0|] eqn:Hr.
  - rewrite sumZ_indicator; [done|done|]. apply (Hcover r); [left|done].
  - rewrite (list_fmap_ext _ (λ _, 0%Z) keys) by done.
    by rewrite sumZ_zero.
Qed.

(** X10. In the aggregate [groupby(col).size()] the keys are sorted and
    without duplicates, every count is at least 1, and the counts add up to
    the number of records whose key is not missing. *)
Theorem groupby_size_invariants (col : record → option (list N))
    (df : list record) :
  StronglySorted pystr_le (groupby_size col df).*1
  ∧ NoDup (groupby_size col df).*1
  ∧ Forall (λ kn, 1 <= kn.2)%Z (groupby_size col df)
  ∧ foldr Z.add 0%Z (groupby_size col df).*2 = Z.of_nat (length (omap col df)).
Proof.
  destruct (sorted_unique_spec (omap col df)) as (Hnd & Hin & _).
  rewrite groupby_size_keys. split_and!; [|done| |].
  - apply StronglySorted_merge_sort; apply _.
  - apply Forall_forall. intros [k n] Hkn.
    apply groupby_size_elem in Hkn as [(r & Hr & Hk) ->]. simpl.
    by apply (group_size_present col df r).
  - unfold groupby_size. rewrite <-list_fmap_compose.
    apply (group_sizes_sum col df); [done|].
    intros r k Hr Hk. apply Hin, list_elem_of_omap. eauto.
Qed.

Section MoreTable.
Context (U : unicode_data).

Implicit Types (df : list record) (lv : level).

Lemma df_plot_subset actividad_sel df r :
  r ∈ df_plot U actividad_sel df → r ∈ df.
Proof. unfold df_plot. by intros [_ ?]%list_elem_of_filter. Qed.

(** X11. The opportunity table is always produced, no count in it is
    negative, and its counts add up to the number of records of the selected
    activity that have an area at the chosen level: every such record is
    counted once. *)
Theorem table_accounts_for_every_record df actividad_sel lv :
  ∃ rows,
    tabla_op U df actividad_sel lv = Return rows
    ∧ Forall (λ row, 0 <= n_locales row)%Z rows
    ∧ foldr Z.add 0%Z (n_locales <$> rows)
      = Z.of_nat (length (omap (level_col lv) (df_plot U actividad_sel df))).
Proof.
  destruct (tabla_op_unfold U df actividad_sel lv)
    as (rows & Hrows & Hareas & Hcounts & _).
  destruct (sorted_unique_spec (omap (level_col lv) df)) as (Hnd & Hin & _).
  pose proof (merge_sort_Permutation opportunity_le rows) as Hperm.
  eexists. split_and!; [done|..].
  - rewrite Hperm. apply (Forall_fmap n_locales (λ n, 0 <= n)%Z).
    rewrite Hcounts. apply Forall_fmap, Forall_forall. intros k _. simpl.
    unfold group_size. lia.
  - rewrite (sumZ_perm _ (n_locales <$> rows)) by (by rewrite Hperm).
    rewrite Hcounts, Hareas. apply group_sizes_sum; [done|].
    intros r k Hr%df_plot_subset Hk. apply Hin, list_elem_of_omap. eauto.
Qed.

(** X12. On data as [load_data] leaves it, the area of every record, of
    whatever activity, is a row of the table; a record whose area is missing
    in the file gives a row whose name is the empty string. *)
Theorem table_row_for_every_record raw actividad_sel lv r :
  r ∈ raw →
  ∃ rows,
    tabla_op U (normalize_columns U raw) actividad_sel lv = Return rows
    ∧ normalize_str U (level_col lv r) ∈ area <$> rows
    ∧ (level_col lv r = None → [] ∈ area <$> rows).
Proof.
  intros Hr.
  destruct (tabla_op_spec U (normalize_columns U raw) actividad_sel lv)
    as (rows & Hrows & _ & _ & Hin & _).
  exists rows. split; [done|].
  assert (Harea : normalize_str U (level_col lv r) ∈ area <$> rows).
  { apply Hin. eexists. split.
    - unfold normalize_columns. by apply list_elem_of_fmap_2.
    - by destruct lv. }
  split; [done|]. intros Hnone. by rewrite Hnone in Harea.
Qed.

(** X13. The map and the table show the same counts: an area that the
    aggregate behind the choropleth holds with a count is a row of the table
    with that count, and a row of the table with a positive count is an area
    of that aggregate with the same count. *)
Theorem map_and_table_agree df actividad_sel lv :
  ∃ rows,
    tabla_op U df actividad_sel lv = Return rows
    ∧ ∀ k n,
        (k, n) ∈ match lv with
                 | Barrio => grupo_barrio U actividad_sel df
                 | Distrito => grupo_distrito U actividad_sel df
                 end
        ↔ ∃ row, row ∈ rows ∧ area row = k ∧ n_locales row = n ∧ (0 < n)%Z.
Proof.
  destruct (tabla_op_spec U df actividad_sel lv)
    as (rows & Hrows & _ & _ & Hin & _ & Hcount & _).
  exists rows. split; [done|]. intros k n.
  assert (Hg : match lv with
               | Barrio => grupo_barrio U actividad_sel df
               | Distrito => grupo_distrito U actividad_sel df
               end
               = groupby_size (level_col lv) (df_plot U actividad_sel df))
    by by destruct lv.
  rewrite Hg, groupby_size_elem. split.
  - intros [(r & Hr & Hk) ->].
    assert (Hk' : k ∈ area <$> rows).
    { apply Hin. exists r. split; [by eapply df_plot_subset|done]. }
    apply list_elem_of_fmap in Hk' as (row & -> & Hrow).
    exists row. split_and!; [done|done| |].
    + by eapply Forall_forall in Hcount.
    + pose proof (group_size_present _ _ r (area row) Hr Hk). lia.
  - intros (row & Hrow & <- & <- & Hpos).
    eapply Forall_forall in Hcount; [|done]. split; [|done].
    destruct (decide (Exists (λ r, level_col lv r = Some (area row))
                        (df_plot U actividad_sel df))) as [Hex|Hno].
    + apply Exists_exists in Hex as (r & Hr & Hk). eauto.
    + rewrite group_size_absent in Hcount; [lia|].
      intros r Hr Hk. apply Hno, Exists_exists. eauto.
Qed.

End MoreTable.

Lemma table_row_for_every_record_witness :
  ∃ rows,
    tabla_op Latin1.data (normalize_columns Latin1.data Sample.ranking_df)
      (lit "PAN") Barrio = Return rows
    ∧ normalize_str Latin1.data (level_col Barrio (Sample.local "BAR" "A" "D"))
      ∈ area <$> rows
    ∧ (level_col Barrio (Sample.local "BAR" "A" "D") = None
       → [] ∈ area <$> rows).
Proof.
  apply (table_row_for_every_record Latin1.data Sample.ranking_df (lit "PAN")
           Barrio (Sample.local "BAR" "A" "D")).
  apply (list_elem_of_lookup_2 _ 2). reflexivity.
Defined.

Lemma series_max_ge (s : list Z) (x : Z) : x ∈ s → (x <= series_max s)%Z.
Proof.
  destruct s as [|y s]; [by intros ?%elem_of_nil|]. simpl.
  revert x. induction s as [|z s IH]; intros x.
  - intros [->|?%elem_of_nil]%elem_of_cons; [simpl; lia|done].
  - simpl. intros [->|[->|Hx]%elem_of_cons]%elem_of_cons.
    + specialize (IH y ltac:(left)). lia.
    + lia.
    + specialize (IH x ltac:(by right)). lia.
Qed.

Lemma nunique_le_1 (s : list Z) :
  nunique s ≤ 1 ↔ ∀ x y, x ∈ s → y ∈ s → x = y.
Proof.
  assert (Heqb : ∀ x y, (x =? y)%Z = true ↔ x = y) by apply Z.eqb_eq.
  unfold nunique. split.
  - intros Hn x y Hx%(elem_of_unique Z.eqb Heqb) Hy%(elem_of_unique Z.eqb Heqb).
    destruct (unique Z.eqb s) as [|v [|w l]]; [by apply elem_of_nil in Hx| |
      simpl in Hn; lia].
    apply list_elem_of_singleton in Hx, Hy. congruence.
  - intros Hall. destruct s as [|v s]; [simpl; lia|].
    change (nunique (v :: s) ≤ 1).
    rewrite (nunique_all_equal (v :: s) v); [done..|].
    apply Forall_forall. intros x Hx. apply Hall; [done|left].
Qed.

Section TableTiers.
Context (U : unicode_data).

Implicit Types (df : list record) (lv : level).

(** The rows before sorting, with the tiers they were given: by
    [quantile_labels] on the column of counts, or "Sin datos" throughout
    when no area has a record of the activity. *)
Lemma tabla_op_tiers df actividad_sel lv :
  ∃ rows,
    tabla_op U df actividad_sel lv = Return (merge_sort opportunity_le rows)
    ∧ Forall (λ row, 0 <= n_locales row)%Z rows
    ∧ (quantile_labels (n_locales <$> rows) = Return (categoria <$> rows)
       ∨ (categoria <$> rows = replicate (length rows) (Some Sin_datos)
          ∧ ∀ row, row ∈ rows → n_locales row = 0%Z)).
Proof.
  unfold tabla_op, compute_opportunities.
  set (all_areas := merge_sort pystr_le _).
  assert (Hex : match lv with
                | Barrio => grupo_barrio U actividad_sel df
                | Distrito => grupo_distrito U actividad_sel df
                end = groupby_size (level_col lv) (df_plot U actividad_sel df))
    by by destruct lv.
  rewrite Hex.
  set (comp := merge_left all_areas _).
  destruct (merge_left_groupby (level_col lv) all_areas
              (df_plot U actividad_sel df)) as [Hkeys Hcounts].
  fold comp in Hkeys, Hcounts.
  set (counts := (λ kn : list N * option Z, default 0%Z kn.2) <$> comp) in *.
  assert (Hpos : ∀ n, n ∈ counts → (0 <= n)%Z).
  { rewrite Hcounts. intros n (k & -> & _)%list_elem_of_fmap.
    unfold group_size. lia. }
  assert (Hcats : ∃ cats,
            (if (0 <? length comp) && (0 <? series_max counts)%Z
             then quantile_labels counts
             else Return (replicate (length comp) (Some Sin_datos)))
            = Return cats
            ∧ length cats = length comp
            ∧ (quantile_labels counts = Return cats
               ∨ (cats = replicate (length comp) (Some Sin_datos)
                  ∧ ∀ n, n ∈ counts → n = 0%Z))).
  { destruct ((0 <? length comp) && (0 <? series_max counts)%Z) eqn:Hguard.
    - destruct (quantile_labels_total counts) as (cats & Hq & Hlen & _).
      exists cats. split_and!; [done| |by left].
      rewrite Hlen. unfold counts. by rewrite length_fmap.
    - eexists. split_and!; [done|by rewrite length_replicate|]. right.
      split; [done|]. intros n Hn.
      apply andb_false_iff in Hguard as [Hlen|Hmax].
      + apply Nat.ltb_ge in Hlen. unfold counts in Hn.
        destruct comp; [by apply elem_of_nil in Hn|simpl in Hlen; lia].
      + apply Z.ltb_ge in Hmax. pose proof (series_max_ge counts n Hn).
        specialize (Hpos n Hn). lia. }
  destruct Hcats as (cats & -> & Hlen & Hlabels).
  destruct (zip_with_rows comp cats Hlen) as (Ha & Hn & Hc).
  set (rows := zip_with _ comp cats) in *.
  assert (Hrows : length rows = length comp).
  { by rewrite <-(length_fmap area rows), Ha, length_fmap. }
  exists rows. split_and!; [done| |].
  - apply (Forall_fmap n_locales (λ n, 0 <= n)%Z). rewrite Hn.
    by apply Forall_forall.
  - rewrite Hn, Hc, Hrows. destruct Hlabels as [?|[-> Hzero]]; [by left|right].
    split; [done|]. intros row Hrow. apply Hzero. unfold counts.
    rewrite <-Hn. by apply list_elem_of_fmap_2.
Qed.

Lemma sorted_rows_counts (rows : list opportunity) i j ri rj :
  StronglySorted opportunity_le rows → i ≤ j →
  rows !! i = Some ri → rows !! j = Some rj →
  (n_locales ri <= n_locales rj)%Z.
Proof.
  intros Hs Hij Hi Hj. destruct (decide (i = j)) as [->|Hne].
  - rewrite Hi in Hj. injection Hj as ->. lia.
  - assert (Hle : opportunity_le ri rj)
      by (apply (strictly_sorted_lookup _ rows i j); [done|lia|done..]).
    destruct Hle as [?|[? _]]; lia.
Qed.

(** X14. Down the opportunity table the counts never decrease, and neither
    do the tiers: every row has a tier, and a row further down has a tier at
    least as high. *)
Theorem table_tiers_ascend df actividad_sel lv rows i j ri rj :
  tabla_op U df actividad_sel lv = Return rows →
  i ≤ j → rows !! i = Some ri → rows !! j = Some rj →
  (n_locales ri <= n_locales rj)%Z
  ∧ ∃ ti tj, categoria ri = Some ti ∧ categoria rj = Some tj
             ∧ tier_rank ti ≤ tier_rank tj.
Proof.
  intros Hrows Hij Hi Hj.
  destruct (tabla_op_tiers df actividad_sel lv) as (rows0 & Hrows0 & _ & Hcats).
  rewrite Hrows in Hrows0. injection Hrows0 as ->.
  pose proof (merge_sort_Permutation opportunity_le rows0) as Hperm.
  assert (Hsorted : StronglySorted opportunity_le (merge_sort opportunity_le rows0))
    by (apply StronglySorted_merge_sort; apply _).
  pose proof (sorted_rows_counts _ i j ri rj Hsorted Hij Hi Hj) as Hn.
  split; [done|].
  apply list_elem_of_lookup_2 in Hi, Hj. rewrite Hperm in Hi, Hj.
  apply list_elem_of_lookup in Hi as [i0 Hi0], Hj as [j0 Hj0].
  destruct Hcats as [Hq|[Hrep _]].
  - destruct (quantile_labels_total (n_locales <$> rows0))
      as (cats & Hq' & _ & Hsome).
    rewrite Hq in Hq'. injection Hq' as <-.
    assert (Hri : is_Some (categoria ri)).
    { eapply Forall_forall in Hsome; [done|].
      by apply list_elem_of_fmap_2, (list_elem_of_lookup_2 _ i0). }
    assert (Hrj : is_Some (categoria rj)).
    { eapply Forall_forall in Hsome; [done|].
      by apply list_elem_of_fmap_2, (list_elem_of_lookup_2 _ j0). }
    destruct Hri as [ti Hti], Hrj as [tj Htj]. exists ti, tj.
    split_and!; [done..|].
    apply (tiers_monotone (n_locales <$> rows0) (categoria <$> rows0)
             i0 j0 (n_locales ri) (n_locales rj)); try done.
    + by rewrite list_lookup_fmap, Hi0.
    + by rewrite list_lookup_fmap, Hj0.
    + by rewrite list_lookup_fmap, Hi0, <-Hti.
    + by rewrite list_lookup_fmap, Hj0, <-Htj.
  - assert (Hall : ∀ row, row ∈ rows0 → categoria row = Some Sin_datos).
    { intros row Hrow. apply (list_elem_of_fmap_2 categoria) in Hrow.
      rewrite Hrep in Hrow. by apply elem_of_replicate_inv in Hrow. }
    exists Sin_datos, Sin_datos.
    split_and!; [apply Hall|apply Hall|done]; by eapply list_elem_of_lookup_2.
Qed.

(** X15. In a table that is not empty some row is "Sin datos" exactly when
    all the rows have the same count, and then every row is "Sin datos". *)
Theorem table_sin_datos df actividad_sel lv rows :
  tabla_op U df actividad_sel lv = Return rows → rows ≠ [] →
  ((∃ row, row ∈ rows ∧ categoria row = Some Sin_datos)
   ↔ ∀ a b, a ∈ rows → b ∈ rows → n_locales a = n_locales b)
  ∧ ((∃ row, row ∈ rows ∧ categoria row = Some Sin_datos)
     → ∀ row, row ∈ rows → categoria row = Some Sin_datos).
Proof.
  intros Hrows Hne.
  destruct (tabla_op_tiers df actividad_sel lv) as (rows0 & Hrows0 & _ & Hcats).
  rewrite Hrows in Hrows0. injection Hrows0 as ->.
  pose proof (merge_sort_Permutation opportunity_le rows0) as Hperm.
  assert (Hne0 : rows0 ≠ []).
  { intros ->. by apply Hne. }
  assert (Hmem : ∀ row, row ∈ merge_sort opportunity_le rows0 ↔ row ∈ rows0)
    by (intros row; by rewrite Hperm).
  setoid_rewrite Hmem.
  assert (Hsd : (∃ row, row ∈ rows0 ∧ categoria row = Some Sin_datos)
                ↔ Some Sin_datos ∈ categoria <$> rows0).
  { rewrite list_elem_of_fmap. split; intros (row & ? & ?); eauto. }
  assert (Heq : (∀ a b, a ∈ rows0 → b ∈ rows0 → n_locales a = n_locales b)
                ↔ nunique (n_locales <$> rows0) ≤ 1).
  { rewrite nunique_le_1. split.
    - intros H x y (a & -> & Ha)%list_elem_of_fmap
        (b & -> & Hb)%list_elem_of_fmap. by apply H.
    - intros H a b Ha Hb. apply H; by apply list_elem_of_fmap_2. }
  destruct Hcats as [Hq|[Hrep Hzero]].
  - rewrite Hsd, Heq.
    destruct (sin_datos_dichotomy _ _ Hq) as [[Hn Hrep]|[Hn Hout]].
    + assert (Hin : Some Sin_datos ∈ categoria <$> rows0).
      { rewrite Hrep. apply elem_of_replicate. split; [done|].
        by destruct rows0. }
      split; [done|]. intros _ row Hrow.
      apply (list_elem_of_fmap_2 categoria) in Hrow.
      rewrite Hrep in Hrow. by apply elem_of_replicate_inv in Hrow.
    + split; [split|]; [done|lia|done].
  - assert (Hall : ∀ row, row ∈ rows0 → categoria row = Some Sin_datos).
    { intros row Hrow. apply (list_elem_of_fmap_2 categoria) in Hrow.
      rewrite Hrep in Hrow. by apply elem_of_replicate_inv in Hrow. }
    split; [|by intros _].
    split.
    + intros _ a b Ha Hb. by rewrite (Hzero a Ha), (Hzero b Hb).
    + intros _. destruct rows0 as [|row rows0]; [done|].
      exists row. split; [left|apply Hall; left].
Qed.

End TableTiers.

Lemma table_tiers_ascend_witness :
  (0 <= 3)%Z
  ∧ ∃ ti tj, Some Baja = Some ti ∧ Some Alta = Some tj
             ∧ tier_rank ti ≤ tier_rank tj.
Proof.
  apply (table_tiers_ascend Latin1.data Sample.ranking_df (lit "PAN") Barrio
           Fixtures.ranking_rows 1 2
           (Opportunity (lit "B") 0 (Some Baja))
           (Opportunity (lit "C") 3 (Some Alta))).
  - vm_compute. reflexivity.
  - lia.
  - reflexivity.
  - reflexivity.
Defined.

Lemma table_sin_datos_witness :
  ((∃ row, row ∈ Fixtures.ranking_rows ∧ categoria row = Some Sin_datos)
   ↔ ∀ a b, a ∈ Fixtures.ranking_rows → b ∈ Fixtures.ranking_rows →
            n_locales a = n_locales b)
  ∧ ((∃ row, row ∈ Fixtures.ranking_rows ∧ categoria row = Some Sin_datos)
     → ∀ row, row ∈ Fixtures.ranking_rows → categoria row = Some Sin_datos).
Proof.
  apply (table_sin_datos Latin1.data Sample.ranking_df (lit "PAN") Barrio).
  - vm_compute. reflexivity.
  - discriminate.
Defined.

(* ================================================================= *)
(** * The table and the activities do not read the coordinates *)
(* ================================================================= *)

Lemma omap_area_fields (col : record → option (list N))
    (df1 df2 : list record) :
  (∀ r r', area_fields r = area_fields r' → col r = col r') →
  area_fields <$> df1 = area_fields <$> df2 →
  omap col df1 = omap col df2.
Proof.
  intros Hcol. revert df2.
  induction df1 as [|r1 df1 IH]; intros [|r2 df2] Heq; try done.
  apply area_fields_cons_inv in Heq as [Hr Heq].
  change (omap col (r1 :: df1))
    with (match col r1 with Some y => y :: omap col df1 | None => omap col df1 end).
  change (omap col (r2 :: df2))
    with (match col r2 with Some y => y :: omap col df2 | None => omap col df2 end).
  by rewrite (Hcol r1 r2 Hr), (IH df2 Heq).
Qed.

Section TableCoordinates.
Context (U : unicode_data).

(** X16. The opportunity table and the list of activities computed after
    the coordinate completion are those of the data before it. *)
Theorem completion_keeps_table_and_activities
    (barrios_index distritos_index : option (gmap (list N) feature))
    df actividad_sel lv :
  tabla_op U (complete_coordinates U barrios_index distritos_index df)
    actividad_sel lv
  = tabla_op U df actividad_sel lv
  ∧ actividades U (complete_coordinates U barrios_index distritos_index df)
    = actividades U df.
Proof.
  pose proof (complete_coordinates_area_fields U barrios_index distritos_index
                df) as Heq.
  set (df' := complete_coordinates U barrios_index distritos_index df) in *.
  assert (Hplot := df_plot_area_fields U actividad_sel df' df Heq).
  split.
  - unfold tabla_op, compute_opportunities, grupo_barrio, grupo_distrito.
    rewrite (omap_area_fields (level_col lv) df' df);
      [|by intros r r' ?; destruct lv; unfold area_fields in *; simpl;
          congruence|done].
    rewrite (groupby_size_area_fields desc_barrio_local _ _
               ltac:(intros r r'; unfold area_fields; congruence) Hplot).
    by rewrite (groupby_size_area_fields desc_distrito_local _ _
                  ltac:(intros r r'; unfold area_fields; congruence) Hplot).
  - unfold actividades.
    by rewrite (omap_area_fields desc_epigrafe df' df
                  ltac:(intros r r'; unfold area_fields; congruence) Heq).
Qed.

End TableCoordinates.

(* ================================================================= *)
(** * The list of activities *)
(* ================================================================= *)

Section Activities.
Context (U : unicode_data).

Implicit Types (df : list record).

Lemma actividades_elem df x :
  x ∈ actividades U df
  ↔ (∃ r, r ∈ df ∧ desc_epigrafe r = Some x)
    ∧ truthy (strip U x) = true ∧ x ≠ lit "NAN".
Proof.
  unfold actividades. rewrite merge_sort_Permutation, list_elem_of_filter.
  rewrite (elem_of_unique pystr_eqb pystr_eqb_eq), list_elem_of_omap.
  tauto.
Qed.

(** X17. An activity offered for selection that is its own normalisation
    selects at least one record, the selected records are exactly those of
    that activity, and the activity is neither the empty string nor
    ["NAN"]. *)
Theorem offered_activity_selects_records df actividad_sel :
  actividad_sel ∈ actividades U df →
  normalize_str U (Some actividad_sel) = actividad_sel →
  df_plot U actividad_sel df ≠ []
  ∧ (∀ r, r ∈ df_plot U actividad_sel df
          ↔ r ∈ df ∧ desc_epigrafe r = Some actividad_sel)
  ∧ actividad_sel ≠ [] ∧ actividad_sel ≠ lit "NAN".
Proof.
  intros ((r & Hr & Hact) & Hblank & Hnan)%actividades_elem Hidem.
  assert (Hmem : ∀ r, r ∈ df_plot U actividad_sel df
                      ↔ r ∈ df ∧ desc_epigrafe r = Some actividad_sel).
  { intros r'. unfold df_plot. rewrite list_elem_of_filter, Hidem. tauto. }
  split_and!; [|done| |done].
  - intros Hnil. assert (Hin : r ∈ df_plot U actividad_sel df) by by apply Hmem.
    rewrite Hnil in Hin. by apply elem_of_nil in Hin.
  - intros ->. by destruct U.
Qed.

(** The list itself is ascending and free of repetitions. *)
Lemma actividades_sorted df :
  StronglySorted pystr_le (actividades U df) ∧ NoDup (actividades U df).
Proof.
  split; [apply StronglySorted_merge_sort; apply _|].
  unfold actividades. rewrite merge_sort_Permutation.
  apply NoDup_filter, NoDup_unique, pystr_eqb_eq.
Qed.

End Activities.

Lemma offered_activity_selects_records_witness :
  df_plot Latin1.data (lit "PAN") Sample.ranking_df ≠ []
  ∧ (∀ r, r ∈ df_plot Latin1.data (lit "PAN") Sample.ranking_df
          ↔ r ∈ Sample.ranking_df ∧ desc_epigrafe r = Some (lit "PAN"))
  ∧ lit "PAN" ≠ [] ∧ lit "PAN" ≠ lit "NAN".
Proof.
  apply (offered_activity_selects_records Latin1.data).
  - apply (list_elem_of_lookup_2 _ 1). vm_compute. reflexivity.
  - reflexivity.
Defined.

(* ================================================================= *)
(** * The dataset file *)
(* ================================================================= *)

Lemma elem_of_removelast {A} (l : list A) (x : A) :
  x ∈ removelast l → x ∈ l.
Proof.
  induction l as [|a [|b l] IH]; simpl; [by intros ?%elem_of_nil..|].
  intros [->|Hx]%elem_of_cons; [left|right; by apply IH].
Qed.

Section Download.
Context (net : list N → attempt).

(** Started without a local file, the loop requests the URLs in order up to
    the first accepted one, whose content becomes the file; when no URL is
    accepted, every URL has been requested and no file is left. *)
Lemma try_urls_first_accepted (urls : list (list N)) :
  try_urls net urls None
  = match list_find (λ url, accepted (net url) = true) urls with
    | Some (i, url) =>
        (true,
         match net url with
         | Responded r => Some (content_length r)
         | RequestFailed => None
         end,
         take (S i) urls)
    | None => (false, None, urls)
    end.
Proof.
  induction urls as [|url urls IH]; [done|].
  cbn [try_urls list_find].
  assert (Hnext :
    (let '(success, csv, requested) := try_urls net urls None in
     (success, csv, url :: requested))
    = match prod_map S id
              <$> list_find (λ url, accepted (net url) = true) urls with
      | Some (i, url0) =>
          (true,
           match net url0 with
           | Responded r => Some (content_length r)
           | RequestFailed => None
           end,
           take (S i) (url :: urls))
      | None => (false, None, url :: urls)
      end).
  { rewrite IH. by destruct (list_find _ urls) as [[i u]|]. }
  destruct (decide (accepted (net url) = true)) as [Hacc|Hacc].
  - unfold accepted in Hacc. destruct (net url) as [|r]; [done|].
    by apply andb_true_iff in Hacc as [-> ->].
  - unfold accepted in Hacc. destruct (net url) as [|r]; [done|].
    destruct (looks_like_csv r); [|done].
    by destruct (1000000 <? content_length r)%N.
Qed.

(** With a local file in place nothing is requested and the file is left
    as it is; the script goes on exactly when the file is not empty. *)
Lemma existing_file_is_never_replaced (size : N) :
  download_csv_from_drive net (Some size) = (Continue (), Some size, [])
  ∧ ensure_dataset_available net (Some size)
    = (if (0 <? size)%N then Continue CSV_FILE else Stop, Some size, []).
Proof.
  split; [done|]. unfold ensure_dataset_available. by case_match.
Qed.

(** X18. Started without a local file, one run of
    [ensure_dataset_available] requests the URLs in their order and stops
    requesting at the first accepted response. When it goes on, it returns
    the name of the dataset file, and the file holds the content of the last
    response requested, which has status 200, no HTML content type and more
    than 1,000,000 bytes. When it halts, no file is left, every URL has been
    requested and none was accepted. *)
Theorem download_outcome o csv requested :
  ensure_dataset_available net None = (o, csv, requested) →
  requested `prefix_of` urls_to_try
  ∧ Forall (λ url, accepted (net url) = false) (removelast requested)
  ∧ match o with
    | Continue path =>
        path = CSV_FILE
        ∧ ∃ url r, last requested = Some url ∧ net url = Responded r
            ∧ looks_like_csv r = true ∧ (1000000 < content_length r)%N
            ∧ csv = Some (content_length r)
    | Stop =>
        csv = None ∧ requested = urls_to_try
        ∧ Forall (λ url, accepted (net url) = false) urls_to_try
    end.
Proof.
  unfold ensure_dataset_available, download_csv_from_drive.
  rewrite try_urls_first_accepted. generalize urls_to_try. intros urls.
  destruct (list_find _ urls) as [[i url]|] eqn:Hfind.
  - apply list_find_Some in Hfind as (Hi & Hacc & Hbefore).
    unfold accepted in Hacc. destruct (net url) as [|r] eqn:Hnet; [done|].
    apply andb_true_iff in Hacc as [Hlooks Hsize%N.ltb_lt].
    assert (Hpos : (0 <? content_length r)%N = true) by (apply N.ltb_lt; lia).
    rewrite Hpos. intros [= <- <- <-].
    assert (Htake : take (S i) urls = take i urls ++ [url])
      by by apply take_S_r.
    split_and!.
    + apply prefix_take.
    + rewrite Htake, removelast_last. apply Forall_forall.
      intros u [j Hj]%list_elem_of_lookup.
      apply lookup_take_Some in Hj as [Hj Hlt].
      specialize (Hbefore j u Hj Hlt). by destruct (accepted (net u)).
    + done.
    + exists url, r. split_and!; try done. by rewrite Htake, last_snoc.
  - intros [= <- <- <-]. apply list_find_None in Hfind.
    assert (Hall : Forall (λ url, accepted (net url) = false) urls).
    { eapply Forall_impl; [done|]. intros u Hu. simpl in Hu.
      by destruct (accepted (net u)). }
    split_and!; try done.
    apply Forall_forall. intros u Hu.
    eapply Forall_forall in Hall; [done|].
    by apply elem_of_removelast.
Qed.

End Download.

Lemma download_outcome_witness :
  urls_to_try `prefix_of` urls_to_try
  ∧ Forall (λ url, accepted (Fixtures.net url) = false)
      (removelast urls_to_try)
  ∧ CSV_FILE = CSV_FILE
    ∧ ∃ url r, last urls_to_try = Some url ∧ Fixtures.net url = Responded r
        ∧ looks_like_csv r = true ∧ (1000000 < content_length r)%N
        ∧ Some 2000000%N = Some (content_length r).
Proof.
  apply (download_outcome Fixtures.net (Continue CSV_FILE) (Some 2000000%N)
           urls_to_try).
  vm_compute. reflexivity.
Defined.

(* ================================================================= *)
(** * The coordinate columns *)
(* ================================================================= *)

Lemma rename_column_absent (old_name new_name : list N) (columns : list (list N)) :
  old_name ∉ columns → rename_column old_name new_name columns = columns.
Proof.
  intros Hout. unfold rename_column.
  induction columns as [|c columns IH]; [done|].
  apply not_elem_of_cons in Hout as [Hne Hout]. rewrite fmap_cons.
  rewrite decide_False by done. by rewrite IH.
Qed.

Lemma rename_step (old_name new_name : list N) (columns : list (list N)) :
  (if bool_decide (old_name ∈ columns)
   then rename_column old_name new_name columns else columns)
  = rename_column old_name new_name columns.
Proof. case_bool_decide; [done|]. by rewrite rename_column_absent. Qed.

Lemma canonical_column_cases (c : list N) :
  (c ∈ coord_mapping.*1
   ∧ (canonical_column c = lit "lat" ∨ canonical_column c = lit "lon"))
  ∨ ((c ∉ coord_mapping.*1) ∧ canonical_column c = c).
Proof.
  unfold canonical_column.
  destruct (list_find (λ on, on.1 = c) coord_mapping) as [[i on]|] eqn:Hfind.
  - apply list_find_Some in Hfind as (Hi & <- & _). left.
    apply list_elem_of_lookup_2 in Hi. split; [by apply list_elem_of_fmap_2|].
    unfold coord_mapping in Hi.
    repeat (apply elem_of_cons in Hi as [->|Hi]; [auto|]).
    by apply elem_of_nil in Hi.
  - right. split; [|done]. apply list_find_None in Hfind.
    intros (on & -> & Hon)%list_elem_of_fmap.
    by eapply Forall_forall in Hfind.
Qed.

Lemma lat_lon_not_aliases :
  (lit "lat" ∉ coord_mapping.*1) ∧ (lit "lon" ∉ coord_mapping.*1).
Proof.
  split; intros Hin; unfold coord_mapping in Hin; simpl in Hin;
    repeat (apply elem_of_cons in Hin as [Heq|Hin]; [by vm_compute in Heq|]);
    by apply elem_of_nil in Hin.
Qed.

(** The renamings of a mapping, one after the other, on the column labels
    and on one label. *)
Lemma rename_fold (m : list (list N * list N)) (columns : list (list N)) :
  foldl (λ columns on,
           if bool_decide (on.1 ∈ columns)
           then rename_column on.1 on.2 columns else columns) columns m
  = (λ c, foldl (λ c on, if decide (c = on.1) then on.2 else c) c m)
    <$> columns.
Proof.
  revert columns. induction m as [|on m IH]; intros columns; simpl.
  - by rewrite list_fmap_id.
  - rewrite rename_step, IH. unfold rename_column.
    by rewrite <-list_fmap_compose.
Qed.

Lemma rename_chain_fixed (m : list (list N * list N)) (c : list N) :
  c ∉ m.*1 → foldl (λ c on, if decide (c = on.1) then on.2 else c) c m = c.
Proof.
  induction m as [|on m IH]; [done|]. rewrite fmap_cons.
  intros [Hne Hout]%not_elem_of_cons. simpl.
  rewrite decide_False by done. by apply IH.
Qed.

(** In a mapping none of whose targets is a source, the first entry for a
    label decides. *)
Lemma rename_chain (m : list (list N * list N)) (c : list N) :
  (∀ on, on ∈ m → on.2 ∉ m.*1) →
  foldl (λ c on, if decide (c = on.1) then on.2 else c) c m
  = match list_find (λ on, on.1 = c) m with
    | Some (_, on) => on.2
    | None => c
    end.
Proof.
  induction m as [|on m IH]; [done|]. intros Hm.
  assert (Hm' : ∀ on', on' ∈ m → on'.2 ∉ m.*1).
  { intros on' Hon' Hin. apply (Hm on'); [by right|].
    rewrite fmap_cons. by right. }
  cbn [foldl list_find]. destruct (decide (c = on.1)) as [->|Hne].
  - rewrite decide_True by done. apply rename_chain_fixed.
    intros Hin. apply (Hm on); [by left|]. rewrite fmap_cons. by right.
  - rewrite decide_False by done. rewrite (IH Hm').
    by destruct (list_find _ m) as [[i on']|].
Qed.

Lemma coord_mapping_targets (on : list N * list N) :
  on ∈ coord_mapping → on.2 = lit "lat" ∨ on.2 = lit "lon".
Proof.
  unfold coord_mapping. intros Hin.
  repeat (apply elem_of_cons in Hin as [->|Hin]; [auto|]).
  by apply elem_of_nil in Hin.
Qed.

Lemma rename_coordinates_canonical (columns : list (list N)) :
  rename_coordinates columns = canonical_column <$> columns.
Proof.
  unfold rename_coordinates. rewrite rename_fold.
  apply list_fmap_ext. intros i c _. unfold canonical_column.
  apply rename_chain. intros on Hon.
  destruct lat_lon_not_aliases as [Hlat Hlon].
  by destruct (coord_mapping_targets on Hon) as [-> | ->].
Qed.


Lemma ensure_column_elem (name c : list N) (columns : list (list N)) :
  c ∈ ensure_column name columns ↔ c ∈ columns ∨ c = name.
Proof.
  unfold ensure_column. case_bool_decide as Hin.
  - split; [by left|]. by intros [?| ->].
  - rewrite elem_of_app, list_elem_of_singleton. done.
Qed.

Lemma ensure_column_lookup (name c : list N) (columns : list (list N)) i :
  columns !! i = Some c → ensure_column name columns !! i = Some c.
Proof.
  intros Hi. unfold ensure_column. case_bool_decide; [done|].
  by apply lookup_app_l_Some.
Qed.

Lemma ensure_column_length (name : list N) (columns : list (list N)) :
  length (ensure_column name columns) ≤ S (length columns).
Proof.
  unfold ensure_column. case_bool_decide; [lia|].
  rewrite length_app. simpl. lia.
Qed.

(** X19. After the renaming loop of [load_data] and the creation of the
    missing coordinate columns, the frame has the columns of the file, in
    their positions, with every alias of a coordinate column renamed to
    ["lat"] or ["lon"], followed by ["lat"] and ["lon"] where they are
    still missing: both labels are always there, no alias is left, at most
    two columns are added, and two columns of the file that end with the
    same label leave the frame with a duplicated label. *)
Theorem load_data_columns_spec (columns : list (list N)) :
  load_data_columns columns
  = ensure_column (lit "lon")
      (ensure_column (lit "lat") (canonical_column <$> columns))
  ∧ lit "lat" ∈ load_data_columns columns
  ∧ lit "lon" ∈ load_data_columns columns
  ∧ Forall (λ c, c ∉ coord_mapping.*1) (load_data_columns columns)
  ∧ (∀ i c, columns !! i = Some c →
       load_data_columns columns !! i = Some (canonical_column c))
  ∧ length columns ≤ length (load_data_columns columns) ≤ length columns + 2
  ∧ (∀ i j a b, i ≠ j → columns !! i = Some a → columns !! j = Some b →
       canonical_column a = canonical_column b →
       ¬ NoDup (load_data_columns columns)).
Proof.
  unfold load_data_columns. rewrite rename_coordinates_canonical.
  set (renamed := canonical_column <$> columns).
  destruct lat_lon_not_aliases as [Hlat Hlon].
  assert (Hlookup : ∀ i c, columns !! i = Some c →
            ensure_column (lit "lon") (ensure_column (lit "lat") renamed) !! i
            = Some (canonical_column c)).
  { intros i c Hi. do 2 apply ensure_column_lookup.
    unfold renamed. by rewrite list_lookup_fmap, Hi. }
  split_and!; [done| | | |done| | |].
  - apply ensure_column_elem. left. apply ensure_column_elem. by right.
  - apply ensure_column_elem. by right.
  - apply Forall_forall. intros c [[Hc| ->]%ensure_column_elem| ->]%ensure_column_elem;
      [|done..].
    apply list_elem_of_fmap in Hc as (c0 & -> & _).
    destruct (canonical_column_cases c0) as [[_ [->| ->]]|[Hout ->]]; done.
  - assert (Hl : length columns = length renamed)
      by (unfold renamed; by rewrite length_fmap).
    rewrite Hl. unfold ensure_column.
    repeat case_bool_decide; rewrite ?length_app; simpl; lia.
  - pose proof (ensure_column_length (lit "lon")
                  (ensure_column (lit "lat") renamed)).
    pose proof (ensure_column_length (lit "lat") renamed).
    unfold renamed in *. rewrite length_fmap in *. lia.
  - intros i j a b Hij Ha Hb Heq Hnd.
    apply Hlookup in Ha, Hb. rewrite Heq in Ha.
    by apply (NoDup_lookup _ i j _ Hnd Ha) in Hb.
Qed.

(* ================================================================= *)
(** * Normalisation of ASCII text *)
(* ================================================================= *)

Section Strip.
Context (U : unicode_data).

Lemma lstrip_clean (s : list N) :
  match lstrip U s with [] => True | c :: _ => isspace U c = false end.
Proof.
  induction s as [|c s IH]; [done|]. simpl.
  by destruct (isspace U c) eqn:Hc.
Qed.

Lemma lstrip_id (s : list N) :
  match s with [] => True | c :: _ => isspace U c = false end →
  lstrip U s = s.
Proof. destruct s as [|c s]; [done|]. simpl. by intros ->. Qed.

Lemma lstrip_snoc (s : list N) (c : N) :
  isspace U c = false → lstrip U (s ++ [c]) = lstrip U s ++ [c].
Proof.
  intros Hc. induction s as [|a s IH]; simpl; [by rewrite Hc|].
  by destruct (isspace U a).
Qed.

Lemma rstrip_cons (s : list N) (c : N) :
  isspace U c = false → rstrip U (c :: s) = c :: rstrip U s.
Proof.
  intros Hc. unfold rstrip.
  by rewrite reverse_cons, lstrip_snoc, reverse_app, reverse_singleton.
Qed.

Lemma rstrip_idempotent (s : list N) : rstrip U (rstrip U s) = rstrip U s.
Proof.
  unfold rstrip. rewrite reverse_involutive. f_equal.
  apply lstrip_id, lstrip_clean.
Qed.

Lemma strip_idempotent (s : list N) : strip U (strip U s) = strip U s.
Proof.
  unfold strip. pose proof (lstrip_clean s) as Hclean.
  destruct (lstrip U s) as [|c x]; [done|].
  rewrite (rstrip_cons x c Hclean). simpl. rewrite Hclean.
  by rewrite <-(rstrip_cons x c Hclean), rstrip_idempotent.
Qed.

Lemma lstrip_Forall (P : N → Prop) (s : list N) :
  Forall P s → Forall P (lstrip U s).
Proof.
  induction 1 as [|c s Hc Hs IH]; [done|]. simpl.
  destruct (isspace U c); [done|by constructor].
Qed.

Lemma strip_Forall (P : N → Prop) (s : list N) :
  Forall P s → Forall P (strip U s).
Proof.
  intros Hs. unfold strip, rstrip.
  by apply Forall_reverse, lstrip_Forall, Forall_reverse, lstrip_Forall.
Qed.

Lemma lstrip_fmap (f : N → N) (s : list N) :
  Forall (λ c, isspace U (f c) = isspace U c) s →
  lstrip U (f <$> s) = f <$> lstrip U s.
Proof.
  induction 1 as [|c s Hc Hs IH]; [done|]. rewrite fmap_cons. simpl.
  rewrite Hc. destruct (isspace U c); [done|by rewrite fmap_cons].
Qed.

Lemma strip_fmap (f : N → N) (s : list N) :
  Forall (λ c, isspace U (f c) = isspace U c) s →
  strip U (f <$> s) = f <$> strip U s.
Proof.
  intros Hs. unfold strip, rstrip.
  rewrite (lstrip_fmap f s Hs), <-fmap_reverse.
  rewrite lstrip_fmap by (by apply Forall_reverse, lstrip_Forall).
  by rewrite fmap_reverse.
Qed.

End Strip.

Lemma ascii_upper_facts (c : N) :
  is_ascii c →
  is_ascii (ascii_upper c)
  ∧ ascii_upper (ascii_upper c) = ascii_upper c
  ∧ ascii_space (ascii_upper c) = ascii_space c.
Proof.
  unfold is_ascii. intros Hc.
  destruct (decide (0x61 <= c <= 0x7A)%N) as [Hletter|Hother].
  - assert (Hup : ascii_upper c = (c - 0x20)%N).
    { unfold ascii_upper.
      destruct (N.leb_spec 0x61 c), (N.leb_spec c 0x7A); simpl; lia. }
    rewrite Hup. split_and!.
    + lia.
    + unfold ascii_upper. destruct (N.leb_spec 0x61 (c - 0x20)); simpl; [lia|done].
    + unfold ascii_space.
      destruct (N.leb_spec 0x09 (c - 0x20)), (N.leb_spec (c - 0x20) 0x0D),
        (N.leb_spec 0x1C (c - 0x20)), (N.leb_spec (c - 0x20) 0x20),
        (N.leb_spec 0x09 c), (N.leb_spec c 0x0D),
        (N.leb_spec 0x1C c), (N.leb_spec c 0x20); simpl; try done; lia.
  - assert (Hup : ascii_upper c = c).
    { unfold ascii_upper.
      destruct (N.leb_spec 0x61 c), (N.leb_spec c 0x7A); simpl; try done; lia. }
    by rewrite !Hup.
Qed.

Lemma filter_all {A} (P : A → Prop) `{∀ x, Decision (P x)} (l : list A) :
  Forall P l → filter P l = l.
Proof.
  induction 1 as [|x l Hx Hl IH]; [done|].
  by rewrite filter_cons, decide_True, IH.
Qed.

Section Ascii.
Context (U : unicode_data) (HU : agrees_on_ascii U).

Lemma normalize_str_ascii (s : list N) :
  Forall is_ascii s →
  normalize_str U (Some s) = ascii_upper <$> strip U s.
Proof.
  destruct HU as (Hnfkd & Hcomb & _ & Hupper). intros Hs.
  assert (Hstrip : Forall is_ascii (strip U s)) by by apply strip_Forall.
  unfold normalize_str. rewrite (Hnfkd _ Hstrip).
  rewrite filter_all; [by apply Hupper|].
  eapply Forall_impl; [done|]. intros c Hc. by apply Hcomb.
Qed.

(** X20. On ASCII text [normalize_str] gives the stripped text in ASCII
    upper case, normalising the result again changes nothing, and the result
    has no white space at either end. *)
Theorem normalize_str_idempotent_on_ascii (s : list N) :
  Forall is_ascii s →
  normalize_str U (Some (normalize_str U (Some s))) = normalize_str U (Some s)
  ∧ normalize_str U (Some s) = ascii_upper <$> strip U s
  ∧ strip U (normalize_str U (Some s)) = normalize_str U (Some s).
Proof.
  intros Hs. pose proof HU as (_ & _ & Hspace & _).
  assert (Hstrip : Forall is_ascii (strip U s)) by by apply strip_Forall.
  assert (Hn : Forall is_ascii (ascii_upper <$> strip U s)).
  { apply Forall_fmap. eapply Forall_impl; [done|]. intros c Hc.
    by apply ascii_upper_facts. }
  assert (Hsp : ∀ t, Forall is_ascii t →
            Forall (λ c, isspace U (ascii_upper c) = isspace U c) t).
  { intros t Ht. eapply Forall_impl; [done|]. intros c Hc. simpl.
    destruct (ascii_upper_facts c Hc) as (Hu & _ & Hsame).
    by rewrite (Hspace _ Hu), (Hspace _ Hc). }
  assert (Hstripped : strip U (ascii_upper <$> strip U s)
                      = ascii_upper <$> strip U s).
  { rewrite strip_fmap by by apply Hsp. by rewrite strip_idempotent. }
  rewrite (normalize_str_ascii s Hs). split_and!; [|done|done].
  rewrite (normalize_str_ascii _ Hn), Hstripped, <-list_fmap_compose.
  apply list_fmap_ext. intros i c Hc. simpl.
  apply ascii_upper_facts.
  by eapply Forall_forall in Hstrip; [|by eapply list_elem_of_lookup_2].
Qed.

End Ascii.

(** The excerpt of the character database agrees with Unicode on ASCII. *)
Lemma latin1_decomposition_ascii (c : N) :
  is_ascii c → Latin1.decomposition c = [c] ∧ Latin1.ccc c = 0%N.
Proof.
  unfold is_ascii. intros Hc.
  destruct c as [|p]; [done|].
  do 8 (try (destruct p as [p|p|]; try lia)); done.
Qed.

Lemma latin1_agrees_on_ascii : agrees_on_ascii Latin1.data.
Proof.
  split_and!.
  - intros s Hs. simpl. unfold Latin1.to_nfkd.
    assert (Hd : s ≫= Latin1.decomposition = s).
    { induction Hs as [|c s Hc Hs IH]; [done|].
      rewrite bind_cons, IH.
      by rewrite (proj1 (latin1_decomposition_ascii c Hc)). }
    rewrite Hd. clear Hd. induction Hs as [|c s Hc Hs IH]; [done|].
    simpl. rewrite IH. destruct s as [|y s]; [done|]. simpl.
    rewrite (proj2 (latin1_decomposition_ascii c Hc)).
    replace (Latin1.ccc y <? 0)%N with false by (symmetry; apply N.ltb_ge; lia).
    by rewrite andb_false_r.
  - intros c Hc. apply latin1_decomposition_ascii, Hc.
  - intros c Hc. unfold is_ascii in Hc. simpl.
    unfold Latin1.space, ascii_space.
    repeat match goal with
           | |- context [(c =? ?k)%N] =>
               replace (c =? k)%N with false by (symmetry; apply N.eqb_neq; lia)
           end.
    replace (0x2000 <=? c)%N with false by (symmetry; apply N.leb_gt; lia).
    by rewrite !orb_false_r.
  - intros s Hs. simpl. induction Hs as [|c s Hc Hs IH]; [done|].
    rewrite bind_cons, fmap_cons, IH. unfold is_ascii in Hc.
    unfold Latin1.upper_char, ascii_upper.
    destruct ((0x61 <=? c)%N && (c <=? 0x7A)%N); [done|].
    repeat match goal with
           | |- context [(c =? ?k)%N] =>
               replace (c =? k)%N with false by (symmetry; apply N.eqb_neq; lia)
           end.
    by replace (0xE0 <=? c)%N with false by (symmetry; apply N.leb_gt; lia).
Qed.

Lemma normalize_str_idempotent_on_ascii_witness :
  normalize_str Latin1.data
    (Some (normalize_str Latin1.data (Some (lit " Panaderia "))))
  = normalize_str Latin1.data (Some (lit " Panaderia "))
  ∧ normalize_str Latin1.data (Some (lit " Panaderia "))
    = ascii_upper <$> strip Latin1.data (lit " Panaderia ")
  ∧ strip Latin1.data (normalize_str Latin1.data (Some (lit " Panaderia ")))
    = normalize_str Latin1.data (Some (lit " Panaderia ")).
Proof.
  apply (normalize_str_idempotent_on_ascii Latin1.data latin1_agrees_on_ascii).
  vm_compute. repeat constructor.
Defined.
